(** * CuBFF Windows compatibility headers

    A shallow embedding of [windows_portability.h] and [common_windows.h]:
    the conditional-compilation structure of the two headers as functions of
    the preprocessor's macro table, the macros they define together with a
    token-level expander, and the inline function [strerror_r] over a block
    memory with bounds-checked stores. *)

From Stdlib Require Import Ascii.
From stdpp Require Import gmap strings list.

Local Open Scope Z_scope.

(** ** Preprocessing tokens and macros *)

Inductive token :=
  | TIdent (s : string)
  | TLParen
  | TRParen
  | TComma
  | TOther (s : string).

#[global] Instance token_eq_dec : EqDecision token.
Proof. solve_decision. Defined.

(** [#define name body] has no parameter list; [#define name(ps) body] has
    one. *)
Record macro := Macro {
  m_params : option (list string);
  m_body : list token
}.

Definition object_like (body : list token) : macro := Macro None body.
Definition function_like (ps : list string) (body : list token) : macro :=
  Macro (Some ps) body.

Abbreviation macros := (gmap string macro).

Definition defined (D : macros) (name : string) : bool :=
  bool_decide (is_Some (D !! name)).

(** What a header hands on to the later phases of translation. *)
Inductive item :=
  | PragmaCommentLib (lib : string)
  | InlineFunction (name : string).

#[global] Instance item_eq_dec : EqDecision item.
Proof. solve_decision. Defined.

(** The state of the preprocessor: the macros in effect and the items
    produced so far. *)
Record pp := PP {
  pp_macros : macros;
  pp_out : list item
}.

(** *** Directives *)

Definition directive := pp → pp.

(** A group of directives, carried out in the order of the text. *)
Definition group (ds : list directive) : directive := fun st =>
  foldl (fun st d => d st) st ds.

Definition define (name : string) (m : macro) : directive := fun st =>
  PP (<[name := m]> (pp_macros st)) (pp_out st).

Definition emit (i : item) : directive := fun st =>
  PP (pp_macros st) (pp_out st ++ [i]).

Definition ifdef (name : string) (ds1 ds2 : list directive) : directive :=
  fun st =>
    if defined (pp_macros st) name then group ds1 st else group ds2 st.

Definition ifndef (name : string) (ds1 ds2 : list directive) : directive :=
  ifdef name ds2 ds1.

Definition pragma_comment_lib (lib : string) : directive :=
  emit (PragmaCommentLib lib).

(** *** The two headers *)

Section Headers.

(** [#include]: the effect of the named file on the preprocessor. The files
    the two headers include (system headers, and the project's [common.h])
    are not part of them. *)
Variable include : string → directive.

Definition windows_portability_h : directive :=
  ifndef "WINDOWS_PORTABILITY_H" [
    define "WINDOWS_PORTABILITY_H" (object_like []);
    ifdef "_WIN32" [
      include "io.h";
      include "direct.h";
      define "getpid" (object_like [TIdent "_getpid"]);
      define "mkdir" (function_like ["name"; "mode"]
                        [TIdent "_mkdir"; TLParen; TIdent "name"; TRParen]);
      define "access" (object_like [TIdent "_access"]);
      include "string";
      include "errno.h";
      emit (InlineFunction "strerror_r");
      ifndef "__GNUC__" [
        define "__attribute__" (function_like ["x"] [])
      ] []
    ] [
      include "sys/stat.h";
      include "sys/types.h";
      include "unistd.h"
    ]
  ] [].

Definition common_windows_h : directive :=
  ifndef "COMMON_WINDOWS_H" [
    define "COMMON_WINDOWS_H" (object_like []);
    include "common.h";
    ifdef "_WIN32" [
      ifndef "__GNUC__" [
        pragma_comment_lib "brotlienc.lib";
        pragma_comment_lib "brotlidec.lib";
        ifdef "_OPENMP" [
          pragma_comment_lib "libiomp5md.lib"
        ] []
      ] []
    ] []
  ] [].

End Headers.

(** The libraries named by the linker directives among the items. *)
Definition linker_libs (out : list item) : list string :=
  omap (fun i => match i with
                 | PragmaCommentLib lib => Some lib
                 | InlineFunction _ => None
                 end) out.

(** *** Macro replacement *)

(** Replacement of the parameters in a replacement list by the arguments. *)
Fixpoint arg_of (ps : list string) (args : list (list token)) (x : string)
  : option (list token) :=
  match ps, args with
  | p :: ps', a :: args' => if decide (p = x) then Some a else arg_of ps' args' x
  | _, _ => None
  end.

Definition subst_token (ps : list string) (args : list (list token))
  (t : token) : list token :=
  match t with
  | TIdent x => default [t] (arg_of ps args x)
  | _ => [t]
  end.

Definition subst (ps : list string) (args : list (list token))
  (body : list token) : list token :=
  body ≫= subst_token ps args.

(** An invocation of a function-like macro whose arguments are being
    collected: the nesting depth of parentheses inside the current argument,
    the arguments completed so far (last first), and the current one. *)
Record frame := Frame {
  f_params : list string;
  f_body : list token;
  f_depth : nat;
  f_args : list (list token);
  f_cur : list token
}.

(** The scanner: the tokens put out at top level, the invocations that are
    open (innermost first), and the name of a function-like macro just read,
    which is an invocation only if a left parenthesis follows. *)
Record scan := Scan {
  s_out : list token;
  s_stack : list frame;
  s_pending : option (string * list string * list token)
}.

Definition scan_start : scan := Scan [] [] None.

(** Tokens go to the argument being collected, or to the output. *)
Definition put (ts : list token) (s : scan) : scan :=
  match s_stack s with
  | [] => Scan (s_out s ++ ts) [] (s_pending s)
  | Frame ps body d args cur :: fs =>
      Scan (s_out s) (Frame ps body d args (cur ++ ts) :: fs) (s_pending s)
  end.

(** The arguments of a completed invocation. [f()] gives a macro without
    parameters no argument, and any other macro one empty argument. *)
Definition frame_args (f : frame) : list (list token) :=
  match f_params f, f_args f, f_cur f with
  | [], [], [] => []
  | _, _, _ => reverse (f_cur f :: f_args f)
  end.

(** A token read while no macro name is pending. A replacement list is put
    out without a rescan, and an argument is scanned while it is collected.
    This is the replacement of the C standard where replacement lists and
    arguments name no macro (the standard rescans a replacement list, and
    replaces an argument only where its parameter occurs): the lists of the
    two headers name [_getpid], [_mkdir] and [_access], which the theorems
    take not to be macros, and the arguments they speak of name none.
    [None] is a diagnosed error (an invocation with the wrong number of
    arguments). *)
Definition scan_plain (D : macros) (s : scan) (t : token) : option scan :=
  match t with
  | TIdent x =>
      match D !! x with
      | None => Some (put [t] s)
      | Some (Macro None body) => Some (put body s)
      | Some (Macro (Some ps) body) =>
          Some (Scan (s_out s) (s_stack s) (Some (x, ps, body)))
      end
  | TLParen =>
      match s_stack s with
      | [] => Some (put [t] s)
      | Frame ps body d args cur :: fs =>
          Some (Scan (s_out s) (Frame ps body (S d) args (cur ++ [t]) :: fs)
                  (s_pending s))
      end
  | TRParen =>
      match s_stack s with
      | [] => Some (put [t] s)
      | Frame ps body (S d) args cur :: fs =>
          Some (Scan (s_out s) (Frame ps body d args (cur ++ [t]) :: fs)
                  (s_pending s))
      | Frame ps body O args cur :: fs =>
          let actual := frame_args (Frame ps body O args cur) in
          if decide (length actual = length ps)
          then Some (put (subst ps actual body)
                       (Scan (s_out s) fs (s_pending s)))
          else None
      end
  | TComma =>
      match s_stack s with
      | Frame ps body O args cur :: fs =>
          Some (Scan (s_out s) (Frame ps body O (cur :: args) [] :: fs)
                  (s_pending s))
      | _ => Some (put [t] s)
      end
  | TOther _ => Some (put [t] s)
  end.

Definition scan_token (D : macros) (s : scan) (t : token) : option scan :=
  match s_pending s with
  | None => scan_plain D s t
  | Some (x, ps, body) =>
      match t with
      | TLParen =>
          Some (Scan (s_out s) (Frame ps body O [] [] :: s_stack s) None)
      | _ =>
          scan_plain D (put [TIdent x] (Scan (s_out s) (s_stack s) None)) t
      end
  end.

Fixpoint scan_tokens (D : macros) (s : scan) (ts : list token)
  : option scan :=
  match ts with
  | [] => Some s
  | t :: ts' => scan_token D s t ≫= fun s' => scan_tokens D s' ts'
  end.

(** At the end of the text a pending macro name stands for itself, and an
    invocation still open is an error. *)
Definition scan_end (s : scan) : option (list token) :=
  match s_stack s with
  | [] =>
      match s_pending s with
      | None => Some (s_out s)
      | Some (x, _, _) => Some (s_out s ++ [TIdent x])
      end
  | _ :: _ => None
  end.

Definition preprocess (D : macros) (ts : list token) : option (list token) :=
  scan_tokens D scan_start ts ≫= scan_end.

(** *** Arguments of an invocation *)

(** A token that scanning passes on as it is: anything but the name of a
    macro. *)
Definition plain (D : macros) (t : token) : Prop :=
  match t with
  | TIdent x => D !! x = None
  | _ => True
  end.

(** The nesting depth of parentheses after the tokens [ts], read at depth
    [d] inside an argument; [None] when a parenthesis closes the invocation
    or a comma ends the argument. *)
Fixpoint arg_depth (d : nat) (ts : list token) : option nat :=
  match ts with
  | [] => Some d
  | TLParen :: ts' => arg_depth (S d) ts'
  | TRParen :: ts' =>
      match d with
      | O => None
      | S d' => arg_depth d' ts'
      end
  | TComma :: ts' =>
      match d with
      | O => None
      | S _ => arg_depth d ts'
      end
  | _ :: ts' => arg_depth d ts'
  end.

(** [ts] is one argument of an invocation and names no macro: its
    parentheses are balanced and its commas are inside them. *)
Definition argument (D : macros) (ts : list token) : Prop :=
  Forall (plain D) ts ∧ arg_depth 0 ts = Some 0%nat.

(** The invocation [f(a1, ..., an)] as tokens. *)
Fixpoint comma_separated (args : list (list token)) : list token :=
  match args with
  | [] => []
  | [a] => a
  | a :: args' => a ++ TComma :: comma_separated args'
  end.

Definition call (f : string) (args : list (list token)) : list token :=
  TIdent f :: TLParen :: comma_separated args ++ [TRParen].

(** The scanner once a pending macro name has turned out not to be an
    invocation. *)
Definition settle (s : scan) : scan :=
  match s_pending s with
  | None => s
  | Some (x, _, _) => put [TIdent x] (Scan (s_out s) (s_stack s) None)
  end.

(** The scanner [s] with the tokens [o] put out before all of its output. *)
Definition scan_after (o : list token) (s : scan) : scan :=
  Scan (o ++ s_out s) (s_stack s) (s_pending s).

(** The included files leave the macro [x] as it is. *)
Definition keeps (include : string → directive) (x : string) : Prop :=
  ∀ f st, pp_macros (include f st) !! x = pp_macros st !! x.

(** The included files produce no item of their own. *)
Definition quiet (include : string → directive) : Prop :=
  ∀ f st, pp_out (include f st) = pp_out st.

(** The names the header redefines, and the names of the C runtime they
    are mapped to. *)
Definition posix_names : list string := ["getpid"; "mkdir"; "access"].
Definition crt_names : list string := ["_getpid"; "_mkdir"; "_access"].

(** The names [windows_portability.h] defines. *)
Definition header_names : list string :=
  ["WINDOWS_PORTABILITY_H"; "getpid"; "mkdir"; "access"; "__attribute__"].

(** None of the names is a macro. *)
Definition no_macro (D : macros) (names : list string) : Prop :=
  Forall (fun x => D !! x = None) names.

(** The macros in effect after [windows_portability.h]. *)
Definition after_windows_portability_h (include : string → directive)
  (st : pp) : macros :=
  pp_macros (windows_portability_h include st).

(** *** Sample toolchains *)

(** The macros a compiler predefines, by name. *)
Definition predefined (names : list string) : macros :=
  list_to_map ((fun x => (x, object_like [TOther "1"])) <$> names).

Definition msvc : macros := predefined ["_WIN32"; "_MSC_VER"].
Definition msvc_openmp : macros := predefined ["_WIN32"; "_MSC_VER"; "_OPENMP"].
Definition mingw : macros := predefined ["_WIN32"; "__GNUC__"].

(** A compiler that is not GCC, on a system that is not Windows. *)
Definition unix_cc : macros := predefined [].

(** Included files that define and produce nothing. *)
Definition empty_files (f : string) : directive := fun st => st.

(** Tokens of sample calls. *)
Definition sample_name : list token := [TIdent "path"].
Definition sample_mode : list token := [TOther "0755"].
Definition sample_attribute : list token :=
  [TLParen; TIdent "constructor"; TRParen].

(** ** Faults and the error monad *)

(** A run of C code either completes with a value or stops at a fault:
    an access outside the bounds of an object, or the C runtime's
    invalid-parameter handler. *)
Inductive fault :=
  | OutOfBounds (b : positive) (o : Z)
  | NullDeref
  | InvalidParameter.

Inductive res (A : Type) :=
  | Ok (a : A)
  | Fault (f : fault).
Arguments Ok {A} a.
Arguments Fault {A} f.

#[global] Instance res_ret : MRet res := @Ok.
#[global] Instance res_bind : MBind res := fun A B k r =>
  match r with
  | Ok a => k a
  | Fault f => Fault f
  end.

(** ** Memory *)

Definition NUL : ascii := Ascii.zero.

Definition block := positive.

Inductive ptr :=
  | NULL
  | Ptr (b : block) (o : Z).

#[global] Instance ptr_eq_dec : EqDecision ptr.
Proof. solve_decision. Defined.

(** A memory maps each allocated object to its bytes. *)
Abbreviation mem := (gmap block (list ascii)).

(** An access at offset [o] of an object is within its bounds. *)
Definition in_bounds (bs : list ascii) (o : Z) : Prop :=
  0 ≤ o < Z.of_nat (length bs).

Definition load (m : mem) (p : ptr) : res ascii :=
  match p with
  | NULL => Fault NullDeref
  | Ptr b o =>
      match m !! b with
      | Some bs =>
          if decide (in_bounds bs o)
          then match bs !! Z.to_nat o with
               | Some c => Ok c
               | None => Fault (OutOfBounds b o)
               end
          else Fault (OutOfBounds b o)
      | None => Fault (OutOfBounds b o)
      end
  end.

Definition store (m : mem) (p : ptr) (c : ascii) : res mem :=
  match p with
  | NULL => Fault NullDeref
  | Ptr b o =>
      match m !! b with
      | Some bs =>
          if decide (in_bounds bs o)
          then Ok (<[b := <[Z.to_nat o := c]> bs]> m)
          else Fault (OutOfBounds b o)
      | None => Fault (OutOfBounds b o)
      end
  end.

#[global] Arguments load : simpl never.
#[global] Arguments store : simpl never.

(** [p + i] in the loops of the library, whose index goes up by one from
    inside the object: an access that leaves the object leaves it at its
    end, before the address could wrap. The indexing [p[i]] of the shim,
    with any index of type [size_t], is [store_index] below. *)
Definition ptr_add (p : ptr) (i : Z) : ptr :=
  match p with
  | NULL => NULL
  | Ptr b o => Ptr b (o + i)
  end.

(** The string a [char] array starts with: the characters before its first
    null character, if it has one. *)
Fixpoint cstr (bs : list ascii) : option (list ascii) :=
  match bs with
  | [] => None
  | c :: bs' => if decide (c = NUL) then Some [] else (c ::.) <$> cstr bs'
  end.

(** [p] designates [n] bytes of an object of [m]. *)
Definition valid_buffer (m : mem) (p : ptr) (n : Z) : Prop :=
  match p with
  | NULL => False
  | Ptr b o =>
      ∃ bs, m !! b = Some bs ∧ 0 ≤ o ∧ 0 ≤ n ∧ o + n ≤ Z.of_nat (length bs)
  end.

(** The [n] bytes of memory that start at [p]. *)
Definition bytes_at (m : mem) (p : ptr) (n : Z) : option (list ascii) :=
  match p with
  | NULL => None
  | Ptr b o =>
      match m !! b with
      | Some bs =>
          if decide (0 ≤ o ∧ 0 ≤ n ∧ o + n ≤ Z.of_nat (length bs))
          then Some (take (Z.to_nat n) (drop (Z.to_nat o) bs))
          else None
      | None => None
      end
  end.

(** The string stored at [p], looked for in the [n] bytes that start there. *)
Definition string_at (m : mem) (p : ptr) (n : Z) : option (list ascii) :=
  bytes_at m p n ≫= cstr.

(** [writes_within m m' p n]: [m'] differs from [m] at most in the [n] bytes
    at [p]. *)
Definition writes_within (m m' : mem) (p : ptr) (n : Z) : Prop :=
  match p with
  | NULL => m' = m
  | Ptr b o =>
      (∀ b', b' ≠ b → m' !! b' = m !! b') ∧
      ∃ bs bs', m !! b = Some bs ∧ m' !! b = Some bs' ∧
        length bs' = length bs ∧
        ∀ i : nat, (Z.of_nat i < o ∨ o + n ≤ Z.of_nat i) → bs' !! i = bs !! i
  end.

(** ** The C runtime *)

(** What the shim needs to know of a C runtime: the width of [size_t] in
    bits; the table of error messages; the object in which [strerror] hands
    out its result; and what the secure functions of the debug runtime fill
    the unused tail of a destination with ([None] in the release runtime). *)
Record runtime := Runtime {
  size_bits : Z;
  sys_errmsg : Z → list ascii;
  strerror_buffer : block;
  secure_fill : option ascii
}.

Section Runtime.

Variable rt : runtime.

Definition SIZE_MAX : Z := 2 ^ size_bits rt - 1.

Definition is_size_t (n : Z) : Prop := 0 ≤ n ≤ SIZE_MAX.

(** Subtraction at type [size_t]. *)
Definition size_sub (a b : Z) : Z := (a - b) `mod` 2 ^ size_bits rt.

(** The access [p[i]] for an index [i] of type [size_t]: the machine adds
    the index to the address modulo [2 ^ size_bits]. The address reached
    lies in the object of [p] at offset [o + i], or, the sum having wrapped,
    at offset [o + i - 2 ^ size_bits]; or it lies outside the object. *)
Definition index_offset (bs : list ascii) (o i : Z) : Z :=
  if decide (in_bounds bs (o + i)) then o + i
  else if decide (in_bounds bs (o + i - 2 ^ size_bits rt))
       then o + i - 2 ^ size_bits rt
       else o + i.

Definition store_index (m : mem) (p : ptr) (i : Z) (c : ascii) : res mem :=
  match p with
  | NULL => Fault NullDeref
  | Ptr b o =>
      match m !! b with
      | Some bs => store m (Ptr b (index_offset bs o i)) c
      | None => Fault (OutOfBounds b (o + i))
      end
  end.

(** [strerror]: the message and its terminator are placed in the runtime's
    buffer, which the returned pointer designates. The C standard lets a
    later call overwrite the string; the model takes the runtime that does,
    which promises a caller the least. *)
Definition strerror (m : mem) (errnum : Z) : ptr * mem :=
  (Ptr (strerror_buffer rt) 0,
   <[strerror_buffer rt := sys_errmsg rt errnum ++ [NUL]]> m).

(** [n] stores of [c], from index [i] on. *)
Fixpoint fill_from (m : mem) (dst : ptr) (i : Z) (c : ascii) (n : nat)
  : res mem :=
  match n with
  | O => Ok m
  | S n' =>
      m' ← store m (ptr_add dst i) c;
      fill_from m' dst (i + 1) c n'
  end.

(** The loop of [strncpy]: characters are copied up to and including the
    null character, and null characters are appended until [n] characters
    in all have been written. *)
Fixpoint strncpy_from (m : mem) (dst src : ptr) (i : Z) (n : nat)
  : res mem :=
  match n with
  | O => Ok m
  | S n' =>
      c ← load m (ptr_add src i);
      m' ← store m (ptr_add dst i) c;
      if decide (c = NUL) then fill_from m' dst (i + 1) NUL n'
      else strncpy_from m' dst src (i + 1) n'
  end.

Definition strncpy (m : mem) (dst src : ptr) (n : Z) : res (ptr * mem) :=
  m' ← strncpy_from m dst src 0 (Z.to_nat n);
  Ok (dst, m').

(** Stores of the characters [cs], from index [i] on. *)
Fixpoint store_from (m : mem) (dst : ptr) (i : Z) (cs : list ascii)
  : res mem :=
  match cs with
  | [] => Ok m
  | c :: cs' =>
      m' ← store m (ptr_add dst i) c;
      store_from m' dst (i + 1) cs'
  end.

(** [strerror_s]: a null buffer or a size of zero goes to the
    invalid-parameter handler; otherwise the message, cut to [size - 1]
    characters, is stored with its terminator, and the debug runtime fills
    the rest of the [size] bytes. *)
Definition strerror_s (m : mem) (buffer : ptr) (size : Z) (errnum : Z)
  : res (Z * mem) :=
  if decide (buffer = NULL) then Fault InvalidParameter
  else if decide (size = 0) then Fault InvalidParameter
  else
    let msg := take (Z.to_nat (size - 1)) (sys_errmsg rt errnum) in
    let used := Z.of_nat (length msg) + 1 in
    m1 ← store_from m buffer 0 (msg ++ [NUL]);
    m2 ← match secure_fill rt with
         | Some c => fill_from m1 buffer used c (Z.to_nat (size - used))
         | None => Ok m1
         end;
    Ok (0, m2).

(** ** The shim *)

(** [strerror_r] of [windows_portability.h], compiled with the macros [D] in
    effect. *)
Definition strerror_r (D : macros) (m : mem) (errnum : Z) (buf : ptr)
  (buflen : Z) : res (ptr * mem) :=
  if defined D "_MSC_VER" then
    '(_, m1) ← strerror_s m buf buflen errnum;
    Ok (buf, m1)
  else
    let '(result, m1) := strerror m errnum in
    '(_, m2) ← strncpy m1 buf result buflen;
    m3 ← store_index m2 buf (size_sub buflen 1) NUL;
    Ok (buf, m3).

End Runtime.

(** ** Reference behaviour *)

(** The bytes [strncpy] writes for a source string [s] and a count [n]. *)
Definition padded (n : nat) (s : list ascii) : list ascii :=
  take n s ++ replicate (n - length s) NUL.

(** A message cut to what a buffer of [n] bytes holds besides the
    terminator. *)
Definition truncation (s : list ascii) (n : Z) : list ascii :=
  take (Z.to_nat (n - 1)) s.

(** A buffer-bounded copy: the truncation, then null characters up to [n]
    bytes. *)
Definition bounded_copy (s : list ascii) (n : Z) : list ascii :=
  truncation s n ++ replicate (Z.to_nat n - length (truncation s n)) NUL.

(** The memory in which the bytes at [p] are replaced by [new]. *)
Definition overwrite (m : mem) (p : ptr) (new : list ascii) : res mem :=
  match p with
  | NULL => Fault NullDeref
  | Ptr b o =>
      match m !! b with
      | Some bs =>
          if decide (0 ≤ o ∧ o + Z.of_nat (length new) ≤ Z.of_nat (length bs))
          then Ok (<[b := list_inserts (Z.to_nat o) new bs]> m)
          else Fault (OutOfBounds b o)
      | None => Fault (OutOfBounds b o)
      end
  end.

(** What [strerror_s] leaves in a destination of [n] bytes. *)
Definition secure_copy (rt : runtime) (s : list ascii) (n : Z) : list ascii :=
  truncation s n ++ NUL ::
    match secure_fill rt with
    | Some c => replicate (Z.to_nat n - S (length (truncation s n))) c
    | None => []
    end.

(** The bytes the shim leaves at [buf]. *)
Definition shim_bytes (rt : runtime) (D : macros) (errnum buflen : Z)
  : list ascii :=
  if defined D "_MSC_VER" then secure_copy rt (sys_errmsg rt errnum) buflen
  else bounded_copy (sys_errmsg rt errnum) buflen.

(** The memory as the runtime's own bookkeeping leaves it: [strerror] puts
    the message in its buffer, [strerror_s] has none. *)
Definition runtime_state (rt : runtime) (D : macros) (m : mem) (errnum : Z)
  : mem :=
  if defined D "_MSC_VER" then m else (strerror rt m errnum).2.

(** The string that starts at [p], wherever it ends in its object. *)
Definition c_string (m : mem) (p : ptr) : option (list ascii) :=
  match p with
  | NULL => None
  | Ptr b o =>
      bs ← m !! b;
      if decide (0 ≤ o) then cstr (drop (Z.to_nat o) bs) else None
  end.

(** The two implementations the specification names. Under the MSVC family:
    delegation to [strerror_s]. *)
Definition delegate_to_strerror_s (rt : runtime) (m : mem) (errnum : Z)
  (buf : ptr) (buflen : Z) : res (ptr * mem) :=
  '(_, m') ← strerror_s rt m buf buflen errnum;
  Ok (buf, m').

(** Under the other compilers: a buffer-bounded copy of the string that
    [strerror] returns. *)
Definition bounded_copy_of_strerror (rt : runtime) (m : mem) (errnum : Z)
  (buf : ptr) (buflen : Z) : res (ptr * mem) :=
  let '(result, m1) := strerror rt m errnum in
  match c_string m1 result with
  | Some s =>
      m2 ← overwrite m1 buf (bounded_copy s buflen);
      Ok (buf, m2)
  | None => Fault NullDeref
  end.

(** The messages of the runtime are strings: no null character inside. *)
Definition messages_are_strings (rt : runtime) : Prop :=
  ∀ errnum, NUL ∉ sys_errmsg rt errnum.

(** [p] designates [n] bytes of an object of the caller, not the buffer of
    [strerror]. *)
Definition caller_buffer (rt : runtime) (m : mem) (p : ptr) (n : Z) : Prop :=
  valid_buffer m p n ∧ ∀ o, p ≠ Ptr (strerror_buffer rt) o.

(** The [n] bytes at [p] and the [k] bytes at [q] do not overlap. *)
Definition disjoint_buffers (p : ptr) (n : Z) (q : ptr) (k : Z) : Prop :=
  match p, q with
  | Ptr b o, Ptr b' o' => b ≠ b' ∨ o + n ≤ o' ∨ o' + k ≤ o
  | _, _ => True
  end.

(** ** A sample runtime *)

Definition sample_runtime : runtime :=
  Runtime 64
    (fun errnum =>
       if decide (errnum = 2)
       then String.list_ascii_of_string "No such file or directory"
       else String.list_ascii_of_string "Unknown error")
    1%positive None.

(** A memory with one object of the caller, of eight bytes. *)
Definition sample_mem : mem := {[ 2%positive := replicate 8 "x"%char ]}.

Definition sample_buf : ptr := Ptr 2%positive 0.

(** A memory with two objects of the caller, of eight and of four bytes. *)
Definition sample_mem2 : mem :=
  <[3%positive := replicate 4 "y"%char]> sample_mem.

Definition sample_buf2 : ptr := Ptr 3%positive 0.

(** ** Memory lemmas *)

Lemma inserts_splice (o : nat) (new bs : list ascii) :
  (o + length new <= length bs)%nat →
  list_inserts o new bs = take o bs ++ new ++ drop (o + length new) bs.
Proof.
  intros Hlen.
  rewrite <- (take_drop o bs) at 1.
  assert (Ho : length (take o bs) = o) by (rewrite length_take; lia).
  rewrite <- Ho at 1.
  replace (length (take o bs)) with (length (take o bs) + 0)%nat by lia.
  rewrite list_inserts_app_r. f_equal.
  rewrite <- (take_drop (length new) (drop o bs)) at 1.
  rewrite list_inserts_0_r by (rewrite length_take, length_drop; lia).
  by rewrite drop_drop.
Qed.

Lemma take_drop_inserts (o : nat) (new bs : list ascii) :
  (o + length new <= length bs)%nat →
  take (length new) (drop o (list_inserts o new bs)) = new.
Proof.
  intros Hlen. rewrite inserts_splice by done.
  rewrite drop_app_length' by (rewrite length_take; lia).
  by rewrite take_app_length.
Qed.

Lemma store_ok (m : mem) b o bs c :
  m !! b = Some bs → in_bounds bs o →
  store m (Ptr b o) c = Ok (<[b := <[Z.to_nat o := c]> bs]> m).
Proof. intros Hb Ho. unfold store. rewrite Hb. by rewrite decide_True. Qed.

Lemma store_fault (m : mem) b o bs c :
  m !! b = Some bs → ¬ in_bounds bs o →
  store m (Ptr b o) c = Fault (OutOfBounds b o).
Proof. intros Hb Ho. unfold store. rewrite Hb. by rewrite decide_False. Qed.

Lemma store_index_near (rt : runtime) (m : mem) b o i bs c :
  m !! b = Some bs → in_bounds bs (o + i) →
  store_index rt m (Ptr b o) i c = store m (Ptr b (o + i)) c.
Proof.
  intros Hb Hin. unfold store_index, index_offset. rewrite Hb.
  by rewrite decide_True.
Qed.

Lemma store_index_wrapped (rt : runtime) (m : mem) b o i bs c :
  m !! b = Some bs → ¬ in_bounds bs (o + i) →
  in_bounds bs (o + i - 2 ^ size_bits rt) →
  store_index rt m (Ptr b o) i c
  = store m (Ptr b (o + i - 2 ^ size_bits rt)) c.
Proof.
  intros Hb Hout Hin. unfold store_index, index_offset. rewrite Hb.
  rewrite decide_False by done. by rewrite decide_True.
Qed.

Lemma store_index_outside (rt : runtime) (m : mem) b o i bs c :
  m !! b = Some bs → ¬ in_bounds bs (o + i) →
  ¬ in_bounds bs (o + i - 2 ^ size_bits rt) →
  store_index rt m (Ptr b o) i c = Fault (OutOfBounds b (o + i)).
Proof.
  intros Hb Hout Hout'. unfold store_index, index_offset. rewrite Hb.
  rewrite !decide_False by done. by apply store_fault with bs.
Qed.

Lemma load_ok (m : mem) b o bs c :
  m !! b = Some bs → 0 ≤ o → bs !! Z.to_nat o = Some c →
  load m (Ptr b o) = Ok c.
Proof.
  intros Hb Ho Hc. unfold load. rewrite Hb, Hc.
  rewrite decide_True; [done|].
  apply lookup_lt_Some in Hc. unfold in_bounds. lia.
Qed.

Lemma store_from_ok (cs : list ascii) : ∀ (m : mem) b o i bs,
  m !! b = Some bs → 0 ≤ o + i →
  o + i + Z.of_nat (length cs) ≤ Z.of_nat (length bs) →
  store_from m (Ptr b o) i cs
  = Ok (<[b := list_inserts (Z.to_nat (o + i)) cs bs]> m).
Proof.
  induction cs as [|c cs IH]; intros m b o i bs Hb Hlo Hhi; simpl.
  - by rewrite insert_id.
  - simpl in Hhi.
    rewrite (store_ok m b (o + i) bs c Hb) by (unfold in_bounds; lia).
    simpl.
    rewrite (IH _ b o (i + 1) (<[Z.to_nat (o + i) := c]> bs));
      [| by rewrite lookup_insert_eq | lia | rewrite length_insert; lia].
    rewrite insert_insert_eq. do 2 f_equal.
    replace (Z.to_nat (o + (i + 1))) with (S (Z.to_nat (o + i))) by lia.
    symmetry. apply list_insert_inserts_lt. lia.
Qed.

Lemma fill_from_store_from (n : nat) : ∀ (m : mem) dst i c,
  fill_from m dst i c n = store_from m dst i (replicate n c).
Proof.
  induction n as [|n IH]; intros m dst i c; simpl; [done|].
  destruct (store m (ptr_add dst i) c); simpl; [apply IH | done].
Qed.

Lemma padded_cons (n : nat) (c : ascii) (s : list ascii) :
  padded (S n) (c :: s) = c :: padded n s.
Proof. done. Qed.

Lemma padded_nil (n : nat) : padded n [] = replicate n NUL.
Proof. unfold padded. rewrite take_nil. simpl. by rewrite Nat.sub_0_r. Qed.

Lemma length_padded (n : nat) (s : list ascii) : length (padded n s) = n.
Proof.
  unfold padded. rewrite length_app, length_take, length_replicate. lia.
Qed.

Lemma strncpy_from_ok (n : nat) :
  ∀ (m : mem) b o bs sb (text rest : list ascii) (k : nat),
  m !! b = Some bs → m !! sb = Some (text ++ NUL :: rest) → sb ≠ b →
  NUL ∉ text → (k <= length text)%nat → 0 ≤ o →
  o + Z.of_nat k + Z.of_nat n ≤ Z.of_nat (length bs) →
  strncpy_from m (Ptr b o) (Ptr sb 0) (Z.of_nat k) n
  = Ok (<[b := list_inserts (Z.to_nat o + k) (padded n (drop k text)) bs]> m).
Proof.
  induction n as [|n IH]; intros m b o bs sb text rest k Hb Hsb Hne Hnul Hk Ho Hlen.
  - simpl. by rewrite insert_id.
  - cbn [strncpy_from ptr_add].
    assert (Hidx : Z.to_nat (0 + Z.of_nat k) = k) by lia.
    assert (Hat : Z.to_nat (o + Z.of_nat k) = (Z.to_nat o + k)%nat) by lia.
    destruct (decide (k < length text)%nat) as [Hlt|Hge].
    + destruct (lookup_lt_is_Some_2 text k Hlt) as [c Hc].
      assert (Hcn : c ≠ NUL).
      { intros ->. apply Hnul. by eapply list_elem_of_lookup_2. }
      rewrite (load_ok m sb _ _ c Hsb); [| lia |].
      2:{ rewrite Hidx. by rewrite lookup_app_l. }
      cbn [mbind res_bind].
      rewrite (store_ok m b _ bs c Hb) by (unfold in_bounds; lia).
      cbn [mbind res_bind]. rewrite decide_False by done.
      replace (Z.of_nat k + 1) with (Z.of_nat (S k)) by lia.
      rewrite (IH _ b o (<[Z.to_nat (o + Z.of_nat k) := c]> bs) sb text rest (S k));
        [| by rewrite lookup_insert_eq | by rewrite lookup_insert_ne
         | done | done | lia | done | rewrite length_insert; lia].
      rewrite insert_insert_eq. do 2 f_equal.
      rewrite (drop_S text c k Hc), padded_cons. simpl.
      rewrite Hat. replace (Z.to_nat o + S k)%nat with (S (Z.to_nat o + k)) by lia.
      symmetry. apply list_insert_inserts_lt. lia.
    + assert (k = length text) as Hkeq by lia.
      rewrite (load_ok m sb _ _ NUL Hsb); [| lia |].
      2:{ rewrite Hidx, Hkeq. by rewrite list_lookup_middle. }
      cbn [mbind res_bind].
      rewrite (store_ok m b _ bs NUL Hb) by (unfold in_bounds; lia).
      cbn [mbind res_bind]. rewrite decide_True by done.
      rewrite fill_from_store_from.
      rewrite (store_from_ok _ _ b o _ (<[Z.to_nat (o + Z.of_nat k) := NUL]> bs));
        [| by rewrite lookup_insert_eq | lia
         | rewrite length_replicate, length_insert; lia].
      rewrite insert_insert_eq. do 2 f_equal.
      rewrite drop_ge by lia. rewrite padded_nil. simpl.
      rewrite Hat.
      replace (Z.to_nat (o + (Z.of_nat k + 1))) with (S (Z.to_nat o + k)) by lia.
      symmetry. apply list_insert_inserts_lt. lia.
Qed.

(** ** The bytes of the references *)

Lemma cstr_app (s r : list ascii) :
  NUL ∉ s → cstr (s ++ NUL :: r) = Some s.
Proof.
  induction s as [|c s IH]; intros Hs; simpl.
  - done.
  - apply not_elem_of_cons in Hs as [Hc Hs].
    rewrite decide_False by done. by rewrite IH.
Qed.

Lemma truncation_length (s : list ascii) (n : Z) :
  1 ≤ n → Z.of_nat (length (truncation s n)) ≤ n - 1.
Proof. intros Hn. unfold truncation. rewrite length_take. lia. Qed.

Lemma truncation_nul (s : list ascii) (n : Z) :
  NUL ∉ s → NUL ∉ truncation s n.
Proof.
  intros Hs Hin. apply Hs. unfold truncation in Hin.
  apply elem_of_take in Hin as (i & Hi & _).
  by eapply list_elem_of_lookup_2.
Qed.

Lemma bounded_copy_head (s : list ascii) (n : Z) :
  1 ≤ n →
  ∃ tail, bounded_copy s n = truncation s n ++ NUL :: tail.
Proof.
  intros Hn. unfold bounded_copy.
  pose proof (truncation_length s n Hn) as Hlen.
  destruct (Z.to_nat n - length (truncation s n))%nat as [|k] eqn:Hk; [lia|].
  by exists (replicate k NUL).
Qed.

Lemma length_bounded_copy (s : list ascii) (n : Z) :
  1 ≤ n → Z.of_nat (length (bounded_copy s n)) = n.
Proof.
  intros Hn. unfold bounded_copy.
  pose proof (truncation_length s n Hn).
  rewrite length_app, length_replicate. lia.
Qed.

Lemma length_secure_copy (rt : runtime) (s : list ascii) (n : Z) :
  1 ≤ n → Z.of_nat (length (secure_copy rt s n)) ≤ n.
Proof.
  intros Hn. unfold secure_copy.
  pose proof (truncation_length s n Hn).
  rewrite length_app. simpl.
  destruct (secure_fill rt); simpl; [rewrite length_replicate|]; lia.
Qed.

(** The terminator stored at [n - 1] turns what [strncpy] wrote into the
    bounded copy. *)
Lemma padded_terminated (s : list ascii) (n : nat) :
  (1 <= n)%nat →
  <[(n - 1)%nat := NUL]> (padded n s) = bounded_copy s (Z.of_nat n).
Proof.
  intros Hn. destruct n as [|n']; [lia|].
  unfold bounded_copy, truncation, padded.
  replace (Z.to_nat (Z.of_nat (S n') - 1)) with n' by lia.
  replace (S n' - 1)%nat with n' by lia.
  rewrite Nat2Z.id.
  destruct (decide (length s <= n')%nat) as [Hle|Hgt].
  - rewrite !take_ge by lia.
    rewrite insert_app_r_alt by lia.
    by rewrite insert_replicate.
  - destruct (lookup_lt_is_Some_2 s n') as [c Hc]; [lia|].
    rewrite (take_S_r s n' c Hc).
    replace (S n' - length s)%nat with 0%nat by lia.
    rewrite length_take.
    replace (S n' - n' `min` length s)%nat with 1%nat by lia.
    simpl. rewrite app_nil_r.
    rewrite insert_app_r_alt by (rewrite length_take; lia).
    rewrite length_take.
    replace (n' - n' `min` length s)%nat with 0%nat by lia.
    done.
Qed.

Lemma insert_inserts (o j : nat) (x : ascii) (new bs : list ascii) :
  (j < length new)%nat → (o + length new <= length bs)%nat →
  <[(o + j)%nat := x]> (list_inserts o new bs)
  = list_inserts o (<[j := x]> new) bs.
Proof.
  intros Hj Hlen.
  rewrite !inserts_splice by (rewrite ?length_insert; lia).
  rewrite length_insert.
  rewrite insert_app_r_alt by (rewrite length_take; lia).
  rewrite length_take.
  replace (o + j - o `min` length bs)%nat with j by lia.
  by rewrite insert_app_l by done.
Qed.

(** ** Overwriting part of an object *)

Lemma overwrite_ok (m : mem) b o bs (new : list ascii) :
  m !! b = Some bs → 0 ≤ o →
  o + Z.of_nat (length new) ≤ Z.of_nat (length bs) →
  overwrite m (Ptr b o) new = Ok (<[b := list_inserts (Z.to_nat o) new bs]> m).
Proof.
  intros Hb Ho Hlen. unfold overwrite. rewrite Hb.
  by rewrite decide_True.
Qed.

Lemma overwrite_writes_within (m m' : mem) (p : ptr) (new : list ascii) (n : Z) :
  overwrite m p new = Ok m' → Z.of_nat (length new) ≤ n →
  writes_within m m' p n.
Proof.
  unfold overwrite. destruct p as [|b o]; [done|].
  destruct (m !! b) as [bs|] eqn:Hb; [|done].
  case_decide as Hin; [|done]. intros [= <-] Hn. split.
  - intros b' Hb'. by rewrite lookup_insert_ne.
  - exists bs, (list_inserts (Z.to_nat o) new bs).
    rewrite lookup_insert_eq, length_inserts. repeat split; try done.
    intros i [Hi|Hi].
    + apply list_lookup_inserts_lt. lia.
    + apply list_lookup_inserts_ge. lia.
Qed.

Lemma overwrite_bytes_at (m m' : mem) (p : ptr) (new : list ascii) :
  overwrite m p new = Ok m' →
  bytes_at m' p (Z.of_nat (length new)) = Some new.
Proof.
  unfold overwrite, bytes_at. destruct p as [|b o]; [done|].
  destruct (m !! b) as [bs|] eqn:Hb; [|done].
  case_decide as Hin; [|done]. intros [= <-].
  rewrite lookup_insert_eq, length_inserts.
  rewrite decide_True by lia.
  rewrite Nat2Z.id. f_equal. apply take_drop_inserts. lia.
Qed.

(** The [n] bytes at [p] after an overwrite start with the new bytes. *)
Lemma overwrite_bytes_at_prefix (m m' : mem) (p : ptr) (new : list ascii) (n : Z) :
  overwrite m p new = Ok m' → valid_buffer m p n →
  Z.of_nat (length new) ≤ n →
  ∃ old, bytes_at m' p n = Some (new ++ old).
Proof.
  unfold overwrite, bytes_at, valid_buffer. destruct p as [|b o]; [done|].
  intros Hw (bs & Hb & Ho & Hn & Hlen) Hnew. rewrite Hb in Hw.
  case_decide as Hin; [|done]. injection Hw as <-.
  rewrite lookup_insert_eq, length_inserts.
  rewrite decide_True by lia.
  rewrite inserts_splice by lia.
  rewrite drop_app_length' by (rewrite length_take; lia).
  rewrite take_app_ge by lia.
  by eexists.
Qed.

Lemma overwrite_string_at (m m' : mem) (p : ptr) (s tail : list ascii) (n : Z) :
  overwrite m p (s ++ NUL :: tail) = Ok m' → valid_buffer m p n →
  Z.of_nat (length (s ++ NUL :: tail)) ≤ n → NUL ∉ s →
  string_at m' p n = Some s.
Proof.
  intros Hw Hv Hlen Hs.
  destruct (overwrite_bytes_at_prefix m m' p _ n Hw Hv Hlen) as [old Hbytes].
  unfold string_at. rewrite Hbytes. simpl.
  rewrite <- app_assoc. simpl. by apply cstr_app.
Qed.

(** ** The shim as an overwrite of the buffer *)

Section Shim.

Context (rt : runtime).

Lemma size_sub_small (n : Z) :
  1 ≤ n → is_size_t rt n → size_sub rt n 1 = n - 1.
Proof.
  unfold is_size_t, SIZE_MAX, size_sub. intros Hn Hsz.
  apply Z.mod_small. lia.
Qed.

Lemma strerror_r_copy (D : macros) (m : mem) (errnum : Z) b o bs (n : Z) :
  defined D "_MSC_VER" = false →
  messages_are_strings rt →
  m !! b = Some bs → b ≠ strerror_buffer rt →
  0 ≤ o → 1 ≤ n → is_size_t rt n → o + n ≤ Z.of_nat (length bs) →
  strerror_r rt D m errnum (Ptr b o) n
  = Ok (Ptr b o,
        <[b := list_inserts (Z.to_nat o) (bounded_copy (sys_errmsg rt errnum) n) bs]>
          (strerror rt m errnum).2).
Proof.
  intros HD Hstr Hb Hne Ho Hn Hsz Hlen.
  unfold strerror_r. rewrite HD. unfold strerror, strncpy.
  set (text := sys_errmsg rt errnum).
  set (m1 := <[strerror_buffer rt := text ++ [NUL]]> m).
  assert (Hb1 : m1 !! b = Some bs) by (subst m1; by rewrite lookup_insert_ne).
  assert (Hs1 : m1 !! strerror_buffer rt = Some (text ++ [NUL]))
    by (subst m1; by rewrite lookup_insert_eq).
  pose proof (strncpy_from_ok (Z.to_nat n) m1 b o bs (strerror_buffer rt)
                text [] 0%nat Hb1 Hs1) as Hcopy.
  change (Z.of_nat 0) with 0 in Hcopy.
  rewrite Hcopy; [| done | apply Hstr | lia | done | lia].
  clear Hcopy. cbn [mbind res_bind ptr_add].
  rewrite drop_0, Nat.add_0_r.
  rewrite size_sub_small by done.
  erewrite store_index_near;
    [| by rewrite lookup_insert_eq
     | unfold in_bounds; rewrite length_inserts; lia].
  erewrite store_ok;
    [| by rewrite lookup_insert_eq
     | unfold in_bounds; rewrite length_inserts; lia].
  cbn [mbind res_bind]. rewrite insert_insert_eq.
  do 3 f_equal.
  replace (Z.to_nat (o + (n - 1))) with (Z.to_nat o + (Z.to_nat n - 1))%nat by lia.
  rewrite insert_inserts by (rewrite length_padded; lia).
  rewrite padded_terminated by lia.
  by rewrite Z2Nat.id by lia.
Qed.

Lemma strerror_r_secure (D : macros) (m : mem) (errnum : Z) b o bs (n : Z) :
  defined D "_MSC_VER" = true →
  m !! b = Some bs →
  0 ≤ o → 1 ≤ n → o + n ≤ Z.of_nat (length bs) →
  strerror_r rt D m errnum (Ptr b o) n
  = Ok (Ptr b o,
        <[b := list_inserts (Z.to_nat o) (secure_copy rt (sys_errmsg rt errnum) n) bs]> m).
Proof.
  intros HD Hb Ho Hn Hlen.
  unfold strerror_r. rewrite HD. unfold strerror_s.
  rewrite decide_False by done. rewrite decide_False by lia.
  fold (truncation (sys_errmsg rt errnum) n).
  set (msg := truncation (sys_errmsg rt errnum) n).
  pose proof (truncation_length (sys_errmsg rt errnum) n Hn) as Hmsg.
  fold msg in Hmsg.
  rewrite (store_from_ok _ m b o 0 bs Hb);
    [| lia | rewrite length_app; simpl; lia].
  cbn [mbind res_bind]. rewrite Z.add_0_r.
  unfold secure_copy. fold msg.
  destruct (secure_fill rt) as [c|]; cbn [mbind res_bind]; [|done].
  rewrite fill_from_store_from.
  erewrite store_from_ok;
    [| by rewrite lookup_insert_eq | lia
     | rewrite length_replicate, length_inserts; lia].
  rewrite insert_insert_eq.
  replace (msg ++ NUL :: replicate (Z.to_nat n - S (length msg)) c)
    with ((msg ++ [NUL]) ++ replicate (Z.to_nat n - S (length msg)) c)
    by (by rewrite <- app_assoc).
  rewrite (list_inserts_app_l (msg ++ [NUL])). rewrite length_app. simpl.
  do 3 f_equal. f_equal; [lia | f_equal; lia].
Qed.

Lemma caller_buffer_runtime_state (D : macros) (m : mem) (errnum : Z) buf (n : Z) :
  caller_buffer rt m buf n → valid_buffer (runtime_state rt D m errnum) buf n.
Proof.
  intros [Hv Hown]. unfold runtime_state.
  destruct (defined D "_MSC_VER"); [done|].
  destruct buf as [|b o]; [done|]. simpl in *.
  destruct Hv as (bs & Hb & Hrest). exists bs. split; [|done].
  rewrite lookup_insert_ne; [done|]. intros <-. by apply (Hown o).
Qed.

Lemma shim_bytes_head (D : macros) (errnum n : Z) :
  1 ≤ n →
  ∃ tail, shim_bytes rt D errnum n
          = truncation (sys_errmsg rt errnum) n ++ NUL :: tail.
Proof.
  intros Hn. unfold shim_bytes. destruct (defined D "_MSC_VER").
  - unfold secure_copy. by eexists.
  - by apply bounded_copy_head.
Qed.

Lemma length_shim_bytes (D : macros) (errnum n : Z) :
  1 ≤ n → Z.of_nat (length (shim_bytes rt D errnum n)) ≤ n.
Proof.
  intros Hn. unfold shim_bytes. destruct (defined D "_MSC_VER").
  - by apply length_secure_copy.
  - by rewrite length_bounded_copy.
Qed.

(** On a buffer of the caller with room for the terminator, the shim
    returns [buf] and its whole effect is to overwrite the buffer with
    [shim_bytes]. *)
Lemma strerror_r_overwrite (D : macros) (m : mem) (errnum : Z) buf (n : Z) :
  messages_are_strings rt → caller_buffer rt m buf n →
  1 ≤ n → is_size_t rt n →
  ∃ m', strerror_r rt D m errnum buf n = Ok (buf, m') ∧
        overwrite (runtime_state rt D m errnum) buf (shim_bytes rt D errnum n)
        = Ok m'.
Proof.
  intros Hstr Hbuf Hn Hsz.
  pose proof (caller_buffer_runtime_state D m errnum buf n Hbuf) as Hv'.
  pose proof (length_shim_bytes D errnum n Hn) as Hlen.
  destruct Hbuf as [Hv Hown].
  destruct buf as [|b o]; [done|]. simpl in Hv, Hv'.
  destruct Hv as (bs & Hb & Ho & _ & Hfit).
  destruct Hv' as (bs' & Hb' & _).
  assert (Hne : b ≠ strerror_buffer rt) by (intros ->; by apply (Hown o)).
  unfold runtime_state, shim_bytes in *.
  destruct (defined D "_MSC_VER") eqn:HD.
  - rewrite (strerror_r_secure D m errnum b o bs n HD Hb Ho Hn Hfit).
    eexists. split; [done|].
    apply overwrite_ok; [done | done | lia].
  - rewrite (strerror_r_copy D m errnum b o bs n HD Hstr Hb Hne Ho Hn Hsz Hfit).
    eexists. split; [done|].
    assert (bs' = bs) as ->.
    { unfold strerror in Hb'. simpl in Hb'.
      rewrite lookup_insert_ne in Hb' by done. congruence. }
    apply overwrite_ok; [done | done | lia].
Qed.

End Shim.

(** ** What the shim leaves in the buffer *)

Lemma runtime_state_other (rt : runtime) (D : macros) (m : mem) (errnum : Z) b :
  b ≠ strerror_buffer rt → runtime_state rt D m errnum !! b = m !! b.
Proof.
  intros Hb. unfold runtime_state. destruct (defined D "_MSC_VER"); [done|].
  unfold strerror. simpl. by rewrite lookup_insert_ne.
Qed.

Lemma strerror_c_string (rt : runtime) (m : mem) (errnum : Z) :
  messages_are_strings rt →
  c_string (strerror rt m errnum).2 (strerror rt m errnum).1
  = Some (sys_errmsg rt errnum).
Proof.
  intros Hstr. unfold strerror, c_string. simpl.
  rewrite lookup_insert_eq. simpl. by apply cstr_app.
Qed.

Lemma strerror_r_string_at (rt : runtime) (D : macros) (m : mem) (errnum : Z)
  (buf : ptr) (n : Z) :
  messages_are_strings rt → caller_buffer rt m buf n →
  1 ≤ n → is_size_t rt n →
  ∃ m', strerror_r rt D m errnum buf n = Ok (buf, m') ∧
        string_at m' buf n = Some (truncation (sys_errmsg rt errnum) n) ∧
        writes_within (runtime_state rt D m errnum) m' buf n.
Proof.
  intros Hstr Hbuf Hn Hsz.
  destruct (strerror_r_overwrite rt D m errnum buf n Hstr Hbuf Hn Hsz)
    as (m' & Hrun & Hw).
  exists m'. split; [done|].
  pose proof (length_shim_bytes rt D errnum n Hn) as Hlen.
  pose proof (caller_buffer_runtime_state rt D m errnum buf n Hbuf) as Hv.
  split; [|by eapply overwrite_writes_within].
  destruct (shim_bytes_head rt D errnum n Hn) as [tail Htail].
  rewrite Htail in Hw, Hlen.
  eapply overwrite_string_at; [done | done | done |].
  apply truncation_nul, Hstr.
Qed.

(** C1: for every error number and every buffer of the caller of
    [n >= 1] bytes, [strerror_r] returns normally and leaves in the buffer a
    null-terminated string of at most [n - 1] characters, found within the
    [n] bytes; nothing outside these [n] bytes is written, in the buffer's
    object or in any other (the runtime's own [strerror] buffer is the
    runtime's to write, and is the only object in which [runtime_state]
    differs from [m]). *)
Theorem strerror_r_terminated (rt : runtime) (D : macros) (m : mem)
  (errnum : Z) (buf : ptr) (n : Z) :
  messages_are_strings rt → caller_buffer rt m buf n →
  1 ≤ n → is_size_t rt n →
  ∃ m' s, strerror_r rt D m errnum buf n = Ok (buf, m') ∧
          string_at m' buf n = Some s ∧
          Z.of_nat (length s) ≤ n - 1 ∧
          writes_within (runtime_state rt D m errnum) m' buf n ∧
          ∀ b, b ≠ strerror_buffer rt →
               runtime_state rt D m errnum !! b = m !! b.
Proof.
  intros Hstr Hbuf Hn Hsz.
  destruct (strerror_r_string_at rt D m errnum buf n Hstr Hbuf Hn Hsz)
    as (m' & Hrun & Hs & Hw).
  exists m', (truncation (sys_errmsg rt errnum) n).
  repeat split; try done.
  - by apply truncation_length.
  - intros b Hb. by apply runtime_state_other.
Qed.

Lemma truncation_cases (s : list ascii) (n : Z) :
  truncation s n
  = if decide (Z.of_nat (length s) ≤ n - 1) then s
    else take (Z.to_nat (n - 1)) s.
Proof.
  unfold truncation. case_decide; [|done]. apply take_ge. lia.
Qed.

(** C2: the string left in the buffer is the text of the runtime for
    [errnum], which is the string [strerror errnum] returns, or, when that
    text has more than [n - 1] characters, its first [n - 1] characters. *)
Theorem strerror_r_text (rt : runtime) (D : macros) (m : mem)
  (errnum : Z) (buf : ptr) (n : Z) :
  messages_are_strings rt → caller_buffer rt m buf n →
  1 ≤ n → is_size_t rt n →
  ∃ m' text,
    strerror_r rt D m errnum buf n = Ok (buf, m') ∧
    c_string (strerror rt m errnum).2 (strerror rt m errnum).1 = Some text ∧
    string_at m' buf n
    = Some (if decide (Z.of_nat (length text) ≤ n - 1) then text
            else take (Z.to_nat (n - 1)) text).
Proof.
  intros Hstr Hbuf Hn Hsz.
  destruct (strerror_r_string_at rt D m errnum buf n Hstr Hbuf Hn Hsz)
    as (m' & Hrun & Hs & _).
  exists m', (sys_errmsg rt errnum). split; [done|].
  split; [by apply strerror_c_string|].
  by rewrite <- truncation_cases.
Qed.

(** C8: with [buflen >= 1] the shim returns the pointer [buf] it was given,
    whichever branch was compiled: not a null pointer, and not the pointer
    into the runtime's storage that [strerror] returns. *)
Theorem strerror_r_returns_buf (rt : runtime) (D : macros) (m : mem)
  (errnum : Z) (buf : ptr) (n : Z) :
  messages_are_strings rt → caller_buffer rt m buf n →
  1 ≤ n → is_size_t rt n →
  ∃ p m', strerror_r rt D m errnum buf n = Ok (p, m') ∧
          p = buf ∧ p ≠ NULL ∧ p ≠ (strerror rt m errnum).1.
Proof.
  intros Hstr Hbuf Hn Hsz.
  destruct (strerror_r_overwrite rt D m errnum buf n Hstr Hbuf Hn Hsz)
    as (m' & Hrun & _).
  exists buf, m'. repeat split; try done.
  - destruct Hbuf as [Hv _]. by destruct buf.
  - destruct Hbuf as [_ Hown]. apply Hown.
Qed.

(** ** The two references *)

(** With room for the terminator the shim is one of two implementations,
    and which one depends only on whether [_MSC_VER] is defined. Under the
    MSVC family it is the delegation to [strerror_s buf buflen errnum];
    under every other compiler it is the buffer-bounded copy of the string
    of [strerror errnum] into [buf]: same result, same memory. *)
Theorem strerror_r_two_references (rt : runtime) (D : macros) (m : mem)
  (errnum : Z) (buf : ptr) (n : Z) :
  messages_are_strings rt → caller_buffer rt m buf n →
  1 ≤ n → is_size_t rt n →
  strerror_r rt D m errnum buf n
  = (if defined D "_MSC_VER"
     then delegate_to_strerror_s rt m errnum buf n
     else bounded_copy_of_strerror rt m errnum buf n)
  ∧ ∀ D' m' errnum' buf' n',
      defined D' "_MSC_VER" = defined D "_MSC_VER" →
      strerror_r rt D' m' errnum' buf' n' = strerror_r rt D m' errnum' buf' n'.
Proof.
  intros Hstr Hbuf Hn Hsz. split.
  - destruct (defined D "_MSC_VER") eqn:HD.
    + unfold strerror_r, delegate_to_strerror_s. by rewrite HD.
    + destruct (strerror_r_overwrite rt D m errnum buf n Hstr Hbuf Hn Hsz)
        as (m' & -> & Hw).
      unfold runtime_state, shim_bytes in Hw. rewrite HD in Hw.
      unfold bounded_copy_of_strerror.
      pose proof (strerror_c_string rt m errnum Hstr) as Hc.
      destruct (strerror rt m errnum) as [result m1]. simpl in Hc, Hw.
      by rewrite Hc, Hw.
  - intros D' m' errnum' buf' n' HD'. unfold strerror_r. by rewrite HD'.
Qed.

(** ** Bounds of the stores in the branch for the other compilers *)

Lemma strncpy_strerror (rt : runtime) (m : mem) (errnum : Z) b o bs (n : Z) :
  messages_are_strings rt →
  m !! b = Some bs → b ≠ strerror_buffer rt →
  0 ≤ o → 0 ≤ n → o + n ≤ Z.of_nat (length bs) →
  strncpy (strerror rt m errnum).2 (Ptr b o) (strerror rt m errnum).1 n
  = Ok (Ptr b o,
        <[b := list_inserts (Z.to_nat o)
                 (padded (Z.to_nat n) (sys_errmsg rt errnum)) bs]>
          (strerror rt m errnum).2).
Proof.
  intros Hstr Hb Hne Ho Hn Hlen. unfold strerror, strncpy. simpl.
  set (text := sys_errmsg rt errnum).
  set (m1 := <[strerror_buffer rt := text ++ [NUL]]> m).
  assert (Hb1 : m1 !! b = Some bs) by (subst m1; by rewrite lookup_insert_ne).
  assert (Hs1 : m1 !! strerror_buffer rt = Some (text ++ [NUL]))
    by (subst m1; by rewrite lookup_insert_eq).
  pose proof (strncpy_from_ok (Z.to_nat n) m1 b o bs (strerror_buffer rt)
                text [] 0%nat Hb1 Hs1) as Hcopy.
  change (Z.of_nat 0) with 0 in Hcopy.
  rewrite Hcopy; [| done | apply Hstr | lia | done | lia].
  cbn [mbind res_bind]. by rewrite drop_0, Nat.add_0_r.
Qed.

Lemma size_sub_zero (rt : runtime) :
  0 ≤ SIZE_MAX rt → size_sub rt 0 1 = SIZE_MAX rt.
Proof.
  unfold SIZE_MAX, size_sub. intros Hmax.
  symmetry. apply Z.mod_unique with (q := -1); lia.
Qed.

(** C10: in the branch for the other compilers, on an object of the caller
    that fits the address space. For every buffer of [n] bytes in it the
    [strncpy] of at most [n] bytes stays within them, and for [n >= 1] so
    does the store of the terminator at [buf[n - 1]]: the shim returns
    [buf]. For [n = 0] the index [n - 1] is [SIZE_MAX] and the store goes to
    the byte before [buf], outside the buffer: at the start of the object
    that byte is outside the object and the shim stops there; further in,
    the byte of the object before the buffer is overwritten and the shim
    returns. *)
Theorem strerror_r_room_needed (rt : runtime) (D : macros) (m : mem)
  (errnum : Z) b bs :
  defined D "_MSC_VER" = false →
  messages_are_strings rt →
  m !! b = Some bs → b ≠ strerror_buffer rt →
  Z.of_nat (length bs) ≤ SIZE_MAX rt →
  (∀ o n, 0 ≤ o → 0 ≤ n → o + n ≤ Z.of_nat (length bs) →
     ∃ m2,
       strncpy (strerror rt m errnum).2 (Ptr b o) (strerror rt m errnum).1 n
       = Ok (Ptr b o, m2) ∧
       writes_within (strerror rt m errnum).2 m2 (Ptr b o) n ∧
       (1 ≤ n →
        ∃ m3, store_index rt m2 (Ptr b o) (size_sub rt n 1) NUL = Ok m3 ∧
              writes_within m2 m3 (Ptr b o) n ∧
              strerror_r rt D m errnum (Ptr b o) n = Ok (Ptr b o, m3))) ∧
  size_sub rt 0 1 = SIZE_MAX rt ∧
  (∀ o, 0 ≤ o ≤ Z.of_nat (length bs) →
     strerror_r rt D m errnum (Ptr b o) 0
     = if decide (1 ≤ o)
       then Ok (Ptr b o,
                <[b := <[Z.to_nat (o - 1) := NUL]> bs]> (strerror rt m errnum).2)
       else Fault (OutOfBounds b (o + SIZE_MAX rt))).
Proof.
  intros HD Hstr Hb Hne Hobj.
  assert (Hb1 : (strerror rt m errnum).2 !! b = Some bs).
  { unfold strerror. simpl. by rewrite lookup_insert_ne. }
  assert (Hrun : ∀ o n, 0 ≤ o → 0 ≤ n → o + n ≤ Z.of_nat (length bs) →
            strerror_r rt D m errnum (Ptr b o) n
            = store_index rt
                (<[b := list_inserts (Z.to_nat o)
                          (padded (Z.to_nat n) (sys_errmsg rt errnum)) bs]>
                   (strerror rt m errnum).2)
                (Ptr b o) (size_sub rt n 1) NUL
              ≫= fun m3 => Ok (Ptr b o, m3)).
  { intros o n Ho Hn Hlen.
    pose proof (strncpy_strerror rt m errnum b o bs n Hstr Hb Hne Ho Hn Hlen)
      as Hcopy.
    unfold strerror_r. rewrite HD.
    destruct (strerror rt m errnum) as [result m0] eqn:Hse.
    simpl in *. by rewrite Hcopy. }
  split; [|split].
  - intros o n Ho Hn Hlen.
    pose proof (strncpy_strerror rt m errnum b o bs n Hstr Hb Hne Ho Hn Hlen)
      as Hcopy.
    specialize (Hrun o n Ho Hn Hlen).
    set (m1 := (strerror rt m errnum).2) in *.
    set (bs2 := list_inserts (Z.to_nat o)
                  (padded (Z.to_nat n) (sys_errmsg rt errnum)) bs) in *.
    assert (Hover : overwrite m1 (Ptr b o)
                      (padded (Z.to_nat n) (sys_errmsg rt errnum))
                    = Ok (<[b := bs2]> m1)).
    { apply overwrite_ok; [done | done | rewrite length_padded; lia]. }
    assert (Hlen2 : length bs2 = length bs)
      by (subst bs2; apply length_inserts).
    exists (<[b := bs2]> m1). split; [done|]. split.
    { eapply overwrite_writes_within; [done | rewrite length_padded; lia]. }
    intros Hn1. rewrite Hrun.
    rewrite size_sub_small by (unfold is_size_t; lia).
    erewrite store_index_near;
      [| by rewrite lookup_insert_eq | unfold in_bounds; lia].
    erewrite store_ok;
      [| by rewrite lookup_insert_eq | unfold in_bounds; lia].
    eexists. split; [done|]. split; [|done].
    split.
    + intros b' Hb'. by rewrite lookup_insert_ne by done.
    + exists bs2, (<[Z.to_nat (o + (n - 1)) := NUL]> bs2).
      rewrite !lookup_insert_eq, length_insert. repeat split; try done.
      intros i Hi. apply list_lookup_insert_ne. lia.
  - apply size_sub_zero. lia.
  - intros o [Ho Hlen]. rewrite Hrun by lia.
    rewrite size_sub_zero by lia.
    change (Z.to_nat 0) with 0%nat.
    assert (padded 0 (sys_errmsg rt errnum) = []) as ->
      by (apply nil_length_inv, length_padded).
    simpl list_inserts.
    assert (Hpow : 2 ^ size_bits rt = SIZE_MAX rt + 1)
      by (unfold SIZE_MAX; lia).
    case_decide as Ho1.
    + erewrite store_index_wrapped;
        [| by rewrite lookup_insert_eq
         | unfold in_bounds; lia
         | unfold in_bounds; lia].
      erewrite store_ok;
        [| by rewrite lookup_insert_eq | unfold in_bounds; lia].
      cbn [mbind res_bind]. rewrite insert_insert_eq.
      do 4 f_equal. lia.
    + erewrite store_index_outside;
        [| by rewrite lookup_insert_eq
         | unfold in_bounds; lia
         | unfold in_bounds; lia].
      done.
Qed.

(** For [n >= 1] two calls with the same error number and length leave the
    same string in the buffer, whatever the memories they start from; in the
    branch for the other compilers all [n] bytes agree. *)
Lemma strerror_r_deterministic (rt : runtime) (D : macros) (m1 m2 : mem)
  (errnum : Z) (buf : ptr) (n : Z) :
  messages_are_strings rt →
  caller_buffer rt m1 buf n → caller_buffer rt m2 buf n →
  1 ≤ n → is_size_t rt n →
  ∃ m1' m2',
    strerror_r rt D m1 errnum buf n = Ok (buf, m1') ∧
    strerror_r rt D m2 errnum buf n = Ok (buf, m2') ∧
    string_at m1' buf n = string_at m2' buf n ∧
    (defined D "_MSC_VER" = false → bytes_at m1' buf n = bytes_at m2' buf n).
Proof.
  intros Hstr Hbuf1 Hbuf2 Hn Hsz.
  destruct (strerror_r_string_at rt D m1 errnum buf n Hstr Hbuf1 Hn Hsz)
    as (m1' & Hrun1 & Hs1 & _).
  destruct (strerror_r_string_at rt D m2 errnum buf n Hstr Hbuf2 Hn Hsz)
    as (m2' & Hrun2 & Hs2 & _).
  exists m1', m2'. repeat split; try done; [congruence|].
  intros HD.
  destruct (strerror_r_overwrite rt D m1 errnum buf n Hstr Hbuf1 Hn Hsz)
    as (m1'' & Hrun1' & Hw1).
  destruct (strerror_r_overwrite rt D m2 errnum buf n Hstr Hbuf2 Hn Hsz)
    as (m2'' & Hrun2' & Hw2).
  assert (m1'' = m1') as -> by congruence.
  assert (m2'' = m2') as -> by congruence.
  apply overwrite_bytes_at in Hw1, Hw2.
  unfold shim_bytes in Hw1, Hw2. rewrite HD in Hw1, Hw2.
  rewrite length_bounded_copy in Hw1, Hw2 by done. congruence.
Qed.

(** ** The sample runtime and memory meet the assumptions *)

Lemma sample_messages : messages_are_strings sample_runtime.
Proof.
  intros errnum. unfold sample_runtime. simpl.
  case_decide; apply (bool_decide_unpack _); by vm_compute.
Qed.

Lemma sample_caller_buffer : caller_buffer sample_runtime sample_mem sample_buf 8.
Proof.
  split.
  - exists (replicate 8 "x"%char). split; [done|]. simpl. lia.
  - intros o. discriminate.
Qed.

Lemma sample_size : is_size_t sample_runtime 8.
Proof. unfold is_size_t, SIZE_MAX. simpl. lia. Qed.

(** The message for error 2 has 25 characters: in the eight-byte buffer
    both branches leave its first seven. *)
Example strerror_r_sample_mingw :
  (strerror_r sample_runtime mingw sample_mem 2 sample_buf 8
   ≫= fun '(p, m') => Ok (p, string_at m' sample_buf 8))
  = Ok (sample_buf, Some (String.list_ascii_of_string "No such")).
Proof. by vm_compute. Qed.

Example strerror_r_sample_msvc :
  (strerror_r sample_runtime msvc sample_mem 2 sample_buf 8
   ≫= fun '(p, m') => Ok (p, string_at m' sample_buf 8))
  = Ok (sample_buf, Some (String.list_ascii_of_string "No such")).
Proof. by vm_compute. Qed.

(** C1 on the sample runtime: error 2 into the eight-byte buffer, compiled
    by MinGW. *)
Lemma strerror_r_terminated_witness :
  ∃ m' s, strerror_r sample_runtime mingw sample_mem 2 sample_buf 8
          = Ok (sample_buf, m') ∧
          string_at m' sample_buf 8 = Some s ∧
          Z.of_nat (length s) ≤ 8 - 1 ∧
          writes_within (runtime_state sample_runtime mingw sample_mem 2)
            m' sample_buf 8 ∧
          ∀ b, b ≠ strerror_buffer sample_runtime →
               runtime_state sample_runtime mingw sample_mem 2 !! b
               = sample_mem !! b.
Proof.
  apply (strerror_r_terminated sample_runtime mingw sample_mem 2 sample_buf 8).
  - exact sample_messages.
  - exact sample_caller_buffer.
  - lia.
  - exact sample_size.
Defined.

(** C2 on the sample runtime, compiled by MSVC. *)
Lemma strerror_r_text_witness :
  ∃ m' text,
    strerror_r sample_runtime msvc sample_mem 2 sample_buf 8
    = Ok (sample_buf, m') ∧
    c_string (strerror sample_runtime sample_mem 2).2
      (strerror sample_runtime sample_mem 2).1 = Some text ∧
    string_at m' sample_buf 8
    = Some (if decide (Z.of_nat (length text) ≤ 8 - 1) then text
            else take (Z.to_nat (8 - 1)) text).
Proof.
  apply (strerror_r_text sample_runtime msvc sample_mem 2 sample_buf 8).
  - exact sample_messages.
  - exact sample_caller_buffer.
  - lia.
  - exact sample_size.
Defined.

(** C8 on the sample runtime, compiled by MinGW. *)
Lemma strerror_r_returns_buf_witness :
  ∃ p m', strerror_r sample_runtime mingw sample_mem 2 sample_buf 8
          = Ok (p, m') ∧
          p = sample_buf ∧ p ≠ NULL ∧
          p ≠ (strerror sample_runtime sample_mem 2).1.
Proof.
  apply (strerror_r_returns_buf sample_runtime mingw sample_mem 2 sample_buf 8).
  - exact sample_messages.
  - exact sample_caller_buffer.
  - lia.
  - exact sample_size.
Defined.

(** The two implementations on the sample runtime, compiled by MinGW. *)
Lemma strerror_r_two_references_witness :
  strerror_r sample_runtime mingw sample_mem 2 sample_buf 8
  = (if defined mingw "_MSC_VER"
     then delegate_to_strerror_s sample_runtime sample_mem 2 sample_buf 8
     else bounded_copy_of_strerror sample_runtime sample_mem 2 sample_buf 8)
  ∧ ∀ D' m' errnum' buf' n',
      defined D' "_MSC_VER" = defined mingw "_MSC_VER" →
      strerror_r sample_runtime D' m' errnum' buf' n'
      = strerror_r sample_runtime mingw m' errnum' buf' n'.
Proof.
  apply (strerror_r_two_references sample_runtime mingw sample_mem 2 sample_buf 8).
  - exact sample_messages.
  - exact sample_caller_buffer.
  - lia.
  - exact sample_size.
Defined.

(** C10 on the sample runtime: every buffer in the eight-byte object. *)
Lemma strerror_r_room_needed_witness :
  (∀ o n, 0 ≤ o → 0 ≤ n → o + n ≤ Z.of_nat (length (replicate 8 "x"%char)) →
     ∃ m2,
       strncpy (strerror sample_runtime sample_mem 2).2 (Ptr 2%positive o)
         (strerror sample_runtime sample_mem 2).1 n
       = Ok (Ptr 2%positive o, m2) ∧
       writes_within (strerror sample_runtime sample_mem 2).2 m2
         (Ptr 2%positive o) n ∧
       (1 ≤ n →
        ∃ m3, store_index sample_runtime m2 (Ptr 2%positive o)
                (size_sub sample_runtime n 1) NUL = Ok m3 ∧
              writes_within m2 m3 (Ptr 2%positive o) n ∧
              strerror_r sample_runtime mingw sample_mem 2 (Ptr 2%positive o) n
              = Ok (Ptr 2%positive o, m3))) ∧
  size_sub sample_runtime 0 1 = SIZE_MAX sample_runtime ∧
  (∀ o, 0 ≤ o ≤ Z.of_nat (length (replicate 8 "x"%char)) →
     strerror_r sample_runtime mingw sample_mem 2 (Ptr 2%positive o) 0
     = if decide (1 ≤ o)
       then Ok (Ptr 2%positive o,
                <[2%positive := <[Z.to_nat (o - 1) := NUL]> (replicate 8 "x"%char)]>
                  (strerror sample_runtime sample_mem 2).2)
       else Fault (OutOfBounds 2%positive (o + SIZE_MAX sample_runtime))).
Proof.
  apply (strerror_r_room_needed sample_runtime mingw sample_mem 2
           2%positive (replicate 8 "x"%char)).
  - reflexivity.
  - exact sample_messages.
  - reflexivity.
  - discriminate.
  - unfold SIZE_MAX. simpl. lia.
Defined.

(** C7: a call with [buflen = 0] compiled by another compiler than MSVC.
    The two runtime calls the shim makes, [strerror] and [strncpy] with a
    count of zero, succeed and store nothing in the caller's object; the
    shim's own store of the terminator then goes to [buf[SIZE_MAX]],
    outside the buffer. Compiled by MSVC the same call ends in the failure
    [strerror_s] defines for a size of zero, with nothing stored. *)
Theorem strerror_r_zero_length :
  strncpy (strerror sample_runtime sample_mem 2).2 sample_buf
    (strerror sample_runtime sample_mem 2).1 0
  = Ok (sample_buf, (strerror sample_runtime sample_mem 2).2)
  ∧ strerror_r sample_runtime mingw sample_mem 2 sample_buf 0
    = Fault (OutOfBounds 2%positive (2 ^ 64 - 1))
  ∧ strerror_r sample_runtime msvc sample_mem 2 sample_buf 0
    = Fault InvalidParameter.
Proof. repeat split; by vm_compute. Qed.

(** C3: a call with [buflen = 0] compiled by another compiler than MSVC is
    not the buffer-bounded copy of the string of [strerror]. The copy
    bounded by zero bytes stores nothing and returns [buf]; the shim stores
    the terminator at [buf[SIZE_MAX]], the byte before [buf]: for a buffer
    at the start of its object it stops there, outside the object, and for
    a buffer further in it overwrites the byte before the buffer. Compiled
    by MSVC the same call is the delegation to [strerror_s]. *)
Theorem strerror_r_zero_length_not_bounded_copy :
  bounded_copy_of_strerror sample_runtime sample_mem 2 sample_buf 0
  = Ok (sample_buf, (strerror sample_runtime sample_mem 2).2)
  ∧ strerror_r sample_runtime mingw sample_mem 2 sample_buf 0
    = Fault (OutOfBounds 2%positive (2 ^ 64 - 1))
  ∧ bounded_copy_of_strerror sample_runtime sample_mem 2 (Ptr 2%positive 1) 0
    = Ok (Ptr 2%positive 1, (strerror sample_runtime sample_mem 2).2)
  ∧ strerror_r sample_runtime mingw sample_mem 2 (Ptr 2%positive 1) 0
    = Ok (Ptr 2%positive 1,
          <[2%positive := NUL :: replicate 7 "x"%char]>
            (strerror sample_runtime sample_mem 2).2)
  ∧ strerror_r sample_runtime msvc sample_mem 2 sample_buf 0
    = delegate_to_strerror_s sample_runtime sample_mem 2 sample_buf 0.
Proof. repeat split; by vm_compute. Qed.

(** ** Scanning *)

Lemma scan_tokens_app (D : macros) (a b : list token) : ∀ s,
  scan_tokens D s (a ++ b)
  = scan_tokens D s a ≫= fun s' => scan_tokens D s' b.
Proof.
  induction a as [|t a IH]; intros s; simpl; [done|].
  destruct (scan_token D s t) as [s'|]; simpl; [apply IH | done].
Qed.

(** Texts that scan alike from every state can replace each other
    anywhere. *)
Lemma preprocess_replace (D : macros) (a a' pre post : list token) :
  (∀ s, scan_tokens D s a = scan_tokens D s a') →
  preprocess D (pre ++ a ++ post) = preprocess D (pre ++ a' ++ post).
Proof.
  intros Ha. unfold preprocess. rewrite !(scan_tokens_app D pre).
  destruct (scan_tokens D scan_start pre) as [s|]; simpl; [|done].
  by rewrite !scan_tokens_app, Ha.
Qed.

Lemma put_nil (s : scan) : put [] s = s.
Proof.
  destruct s as [out [|[ps body d args cur] fs] pending]; unfold put; simpl;
    by rewrite app_nil_r.
Qed.

Lemma settle_pending (s : scan) : s_pending (settle s) = None.
Proof.
  unfold settle. destruct s as [out stack [[[x ps] body]|]]; simpl; [|done].
  unfold put. simpl. by destruct stack as [|[]].
Qed.

(** A token other than a left parenthesis settles a pending name. *)
Lemma scan_token_settle (D : macros) (s : scan) (t : token) :
  t ≠ TLParen → scan_token D s t = scan_plain D (settle s) t.
Proof.
  intros Ht. unfold scan_token, settle.
  destruct (s_pending s) as [[[x ps] body]|]; [|done]. by destruct t.
Qed.

Lemma arg_depth_app (a b : list token) : ∀ d,
  arg_depth d (a ++ b) = arg_depth d a ≫= fun d' => arg_depth d' b.
Proof.
  induction a as [|t a IH]; intros d; simpl; [done|].
  destruct t; try apply IH; by destruct d.
Qed.

Lemma arg_depth_shift (ts : list token) (k : nat) : ∀ d d',
  arg_depth d ts = Some d' → arg_depth (d + k) ts = Some (d' + k)%nat.
Proof.
  induction ts as [|t ts IH]; intros d d'; simpl.
  - by intros [= ->].
  - destruct t; try apply IH.
    + destruct d as [|d0]; [done|]. apply (IH d0).
    + destruct d as [|d0]; [done|]. apply (IH (S d0)).
Qed.

(** Inside an invocation, tokens that name no macro are added to the
    current argument, and the depth follows the parentheses. *)
Lemma scan_plain_in_frame (D : macros) (ts : list token) :
  Forall (plain D) ts →
  ∀ d d' out ps body args cur fs,
    arg_depth d ts = Some d' →
    scan_tokens D (Scan out (Frame ps body d args cur :: fs) None) ts
    = Some (Scan out (Frame ps body d' args (cur ++ ts) :: fs) None).
Proof.
  induction 1 as [|t ts Ht _ IH]; intros d d' out ps body args cur fs Hd.
  - simpl in *. injection Hd as <-. by rewrite app_nil_r.
  - rewrite (cons_middle t cur ts), app_assoc.
    destruct t as [x| | | |x]; simpl in Ht, Hd; cbn [scan_tokens].
    + unfold scan_token, scan_plain. simpl. rewrite Ht. simpl. by apply IH.
    + unfold scan_token, scan_plain. simpl. by apply IH.
    + destruct d as [|d0]; [done|].
      unfold scan_token, scan_plain. simpl. by apply IH.
    + destruct d as [|d0]; [done|].
      unfold scan_token, scan_plain. simpl. by apply IH.
    + unfold scan_token, scan_plain. simpl. by apply IH.
Qed.

(** Outside any invocation they are put out. *)
Lemma scan_plain_top (D : macros) (ts : list token) :
  Forall (plain D) ts →
  ∀ out, scan_tokens D (Scan out [] None) ts = Some (Scan (out ++ ts) [] None).
Proof.
  induction 1 as [|t ts Ht _ IH]; intros out.
  - simpl. by rewrite app_nil_r.
  - rewrite (cons_middle t out ts), app_assoc.
    destruct t as [x| | | |x]; simpl in Ht; cbn [scan_tokens];
      unfold scan_token, scan_plain; simpl; rewrite ?Ht; simpl; apply IH.
Qed.

(** The arguments of an invocation, up to its closing parenthesis. *)
Lemma scan_args (D : macros) (ps : list string) (body : list token) :
  ∀ args acc out fs,
    args ≠ [] → Forall (argument D) args →
    (length acc + length args = length ps)%nat →
    scan_tokens D (Scan out (Frame ps body 0 acc [] :: fs) None)
      (comma_separated args ++ [TRParen])
    = Some (put (subst ps (reverse acc ++ args) body) (Scan out fs None)).
Proof.
  induction args as [|a args IH]; intros acc out fs Hne Hargs Hlen; [done|].
  apply Forall_cons in Hargs as [[Hplain Hd] Hargs].
  destruct args as [|a' args].
  - simpl comma_separated. rewrite scan_tokens_app.
    rewrite (scan_plain_in_frame D a Hplain 0 0) by done. simpl.
    unfold scan_token, scan_plain. simpl.
    assert (Hargs' : frame_args (Frame ps body 0 acc a) = reverse acc ++ [a]).
    { unfold frame_args. simpl. rewrite reverse_cons.
      destruct ps; [simpl in Hlen; lia|]. done. }
    rewrite Hargs'. rewrite decide_True; [done|].
    rewrite length_app, length_reverse. simpl in *. lia.
  - change (comma_separated (a :: a' :: args))
      with (a ++ TComma :: comma_separated (a' :: args)).
    rewrite <- app_assoc, scan_tokens_app.
    rewrite (scan_plain_in_frame D a Hplain 0 0) by done. simpl.
    change (match args with
            | [] => a'
            | _ :: _ => a' ++ TComma :: comma_separated args
            end) with (comma_separated (a' :: args)).
    rewrite (IH (a :: acc)); [| done | done | simpl in *; lia].
    by rewrite reverse_cons, <- app_assoc.
Qed.

(** An invocation of a function-like macro with plain arguments is replaced
    by its replacement list, the parameters replaced by the arguments. *)
Lemma scan_call (D : macros) (f : string) (ps : list string)
  (body : list token) (args : list (list token)) (s : scan) :
  D !! f = Some (function_like ps body) →
  args ≠ [] → Forall (argument D) args → length args = length ps →
  scan_tokens D s (call f args) = Some (put (subst ps args body) (settle s)).
Proof.
  intros Hf Hne Hargs Hlen. unfold call. cbn [scan_tokens].
  rewrite scan_token_settle by done.
  pose proof (settle_pending s) as Hidle.
  destruct (settle s) as [out fs pending]. simpl in Hidle. subst pending.
  unfold scan_plain. rewrite Hf. simpl.
  by rewrite (scan_args D ps body args [] out fs).
Qed.

(** The name of an object-like macro is replaced by its replacement list. *)
Lemma scan_object_like (D : macros) (x : string) (body : list token) (s : scan) :
  D !! x = Some (object_like body) →
  scan_token D s (TIdent x) = Some (put body (settle s)).
Proof.
  intros Hx. rewrite scan_token_settle by done.
  unfold scan_plain. by rewrite Hx.
Qed.

(** A name that is no macro stands for itself. *)
Lemma scan_ident (D : macros) (x : string) (s : scan) :
  D !! x = None →
  scan_token D s (TIdent x) = Some (put [TIdent x] (settle s)).
Proof.
  intros Hx. rewrite scan_token_settle by done.
  unfold scan_plain. by rewrite Hx.
Qed.

(** A call of a function that is no macro, with plain arguments, is put out
    as it is. *)
Lemma argument_call (D : macros) (f : string) (a : list token) :
  D !! f = None → argument D a → argument D (call f [a]).
Proof.
  intros Hf [Hplain Hd]. split.
  - unfold call. simpl. repeat constructor; [done|].
    apply Forall_app. split; [done|]. by repeat constructor.
  - unfold call. simpl. rewrite arg_depth_app.
    pose proof (arg_depth_shift a 1 0 0 Hd) as Hd1. simpl in Hd1.
    by rewrite Hd1.
Qed.

Lemma scan_tokens_cons (D : macros) (s : scan) (t : token) (ts : list token) :
  scan_tokens D s (t :: ts)
  = scan_token D s t ≫= fun s' => scan_tokens D s' ts.
Proof. done. Qed.

Lemma put_top (ts out : list token) pending :
  put ts (Scan out [] pending) = Scan (out ++ ts) [] pending.
Proof. done. Qed.

Lemma put_frame (ts out : list token) ps body d args cur fs pending :
  put ts (Scan out (Frame ps body d args cur :: fs) pending)
  = Scan out (Frame ps body d args (cur ++ ts) :: fs) pending.
Proof. done. Qed.

Lemma scan_plain_call (D : macros) (f : string) (a : list token) (s : scan) :
  D !! f = None → argument D a →
  scan_tokens D s (call f [a]) = Some (put (call f [a]) (settle s)).
Proof.
  intros Hf Ha.
  pose proof (argument_call D f a Hf Ha) as [Hplain Hd].
  unfold call in *. cbn [comma_separated] in *.
  rewrite scan_tokens_cons, (scan_ident D f s Hf). cbn [mbind option_bind].
  apply Forall_cons in Hplain as [_ Hplain].
  change (arg_depth 0 (TLParen :: a ++ [TRParen]) = Some 0%nat) in Hd.
  pose proof (settle_pending s) as Hidle.
  destruct (settle s) as [out [|[ps body d args cur] fs] pending];
    simpl in Hidle; subst pending.
  - rewrite !put_top, (scan_plain_top D _ Hplain).
    by rewrite <- app_assoc.
  - rewrite !put_frame, (scan_plain_in_frame D _ Hplain d d).
    + by rewrite <- app_assoc.
    + by apply (arg_depth_shift _ d 0 0).
Qed.

(** ** The macros the header defines *)

Lemma defined_insert_ne (D : macros) (x y : string) (m : macro) :
  x ≠ y → defined (<[x := m]> D) y = defined D y.
Proof. intros Hxy. unfold defined. by rewrite lookup_insert_ne. Qed.

Lemma defined_false (D : macros) (x : string) :
  defined D x = false ↔ D !! x = None.
Proof.
  unfold defined. rewrite bool_decide_eq_false.
  by rewrite <- eq_None_not_Some.
Qed.

(** The header on its first inclusion under [_WIN32], directive by
    directive. *)
Lemma windows_portability_h_win32 (include : string → directive) (st : pp) :
  defined (pp_macros st) "WINDOWS_PORTABILITY_H" = false →
  defined (pp_macros st) "_WIN32" = true →
  windows_portability_h include st
  = ifndef "__GNUC__" [define "__attribute__" (function_like ["x"] [])] []
      (emit (InlineFunction "strerror_r")
         (include "errno.h"
            (include "string"
               (define "access" (object_like [TIdent "_access"])
                  (define "mkdir"
                     (function_like ["name"; "mode"]
                        [TIdent "_mkdir"; TLParen; TIdent "name"; TRParen])
                     (define "getpid" (object_like [TIdent "_getpid"])
                        (include "direct.h"
                           (include "io.h"
                              (define "WINDOWS_PORTABILITY_H" (object_like [])
                                 st))))))))).
Proof.
  intros Hguard Hwin.
  unfold windows_portability_h. unfold ifndef at 1. unfold ifdef at 1.
  rewrite Hguard. cbn [group foldl]. unfold ifdef at 1.
  cbn [define pp_macros]. rewrite defined_insert_ne by done.
  rewrite Hwin. reflexivity.
Qed.

Lemma windows_portability_h_posix (include : string → directive) (st : pp) :
  defined (pp_macros st) "WINDOWS_PORTABILITY_H" = false →
  defined (pp_macros st) "_WIN32" = true →
  Forall (keeps include) posix_names →
  pp_macros (windows_portability_h include st) !! "getpid"
  = Some (object_like [TIdent "_getpid"]) ∧
  pp_macros (windows_portability_h include st) !! "mkdir"
  = Some (function_like ["name"; "mode"]
            [TIdent "_mkdir"; TLParen; TIdent "name"; TRParen]) ∧
  pp_macros (windows_portability_h include st) !! "access"
  = Some (object_like [TIdent "_access"]).
Proof.
  intros Hguard Hwin Hkeeps.
  rewrite windows_portability_h_win32 by done.
  apply Forall_cons in Hkeeps as [Kgetpid Hkeeps].
  apply Forall_cons in Hkeeps as [Kmkdir Hkeeps].
  apply Forall_cons in Hkeeps as [Kaccess _].
  unfold ifndef, ifdef.
  repeat split;
    (destruct (defined _ "__GNUC__"); cbn [group foldl define emit pp_macros];
     rewrite ?lookup_insert_ne by done;
     rewrite ?Kgetpid, ?Kmkdir, ?Kaccess; cbn [define pp_macros];
     rewrite ?lookup_insert_ne by done; by rewrite lookup_insert_eq).
Qed.

Lemma windows_portability_h_attribute (include : string → directive) (st : pp) :
  defined (pp_macros st) "WINDOWS_PORTABILITY_H" = false →
  defined (pp_macros st) "_WIN32" = true →
  defined (pp_macros st) "__GNUC__" = false →
  keeps include "__GNUC__" →
  pp_macros (windows_portability_h include st) !! "__attribute__"
  = Some (function_like ["x"] []).
Proof.
  intros Hguard Hwin Hgnuc Hkeeps.
  rewrite windows_portability_h_win32 by done.
  unfold ifndef, ifdef.
  match goal with |- context [defined ?D "__GNUC__"] =>
    assert (HD : defined D "__GNUC__" = false) end.
  { apply defined_false. cbn [emit pp_macros]. rewrite !Hkeeps.
    cbn [define pp_macros]. rewrite !lookup_insert_ne by done.
    rewrite !Hkeeps. cbn [define pp_macros].
    rewrite lookup_insert_ne by done. by apply defined_false. }
  rewrite HD. cbn [group foldl define pp_macros].
  by rewrite lookup_insert_eq.
Qed.

(** ** Uses of the redefined names *)

Lemma subst_mkdir (name mode : list token) :
  subst ["name"; "mode"] [name; mode]
    [TIdent "_mkdir"; TLParen; TIdent "name"; TRParen]
  = call "_mkdir" [name].
Proof. unfold subst, call. simpl. done. Qed.

(** An invocation of the header's [mkdir] scans as the call of [_mkdir] on
    the name alone. *)
Lemma scan_mkdir (D : macros) (name mode : list token) (s : scan) :
  D !! "mkdir" = Some (function_like ["name"; "mode"]
                         [TIdent "_mkdir"; TLParen; TIdent "name"; TRParen]) →
  D !! "_mkdir" = None →
  argument D name → argument D mode →
  scan_tokens D s (call "mkdir" [name; mode])
  = scan_tokens D s (call "_mkdir" [name]).
Proof.
  intros Hmkdir Hcrt Hname Hmode.
  rewrite (scan_call D "mkdir" _ _ [name; mode] s Hmkdir);
    [| done | by repeat apply Forall_cons_2 | done].
  rewrite subst_mkdir. symmetry. by apply scan_plain_call.
Qed.

Lemma scan_renamed (D : macros) (x y : string) (s : scan) :
  D !! x = Some (object_like [TIdent y]) → D !! y = None →
  scan_tokens D s [TIdent x] = scan_tokens D s [TIdent y].
Proof.
  intros Hx Hy. rewrite !scan_tokens_cons.
  by rewrite (scan_object_like D x _ s Hx), (scan_ident D y s Hy).
Qed.

(** C4, as the header has it: under [_WIN32], every use of [getpid]
    and of [access], and every invocation of [mkdir] with two arguments
    [mkdir(name, mode)], is read as the use of [_getpid], of [_access] and
    the call [_mkdir(name)] without the mode: a text with the POSIX name
    and the text with the name of the C runtime in its place preprocess to
    the same tokens, wherever the use stands. *)
Theorem posix_names_resolve (include : string → directive) (st : pp)
  (pre post name mode : list token) :
  defined (pp_macros st) "WINDOWS_PORTABILITY_H" = false →
  defined (pp_macros st) "_WIN32" = true →
  Forall (keeps include) posix_names →
  no_macro (after_windows_portability_h include st) crt_names →
  argument (after_windows_portability_h include st) name →
  argument (after_windows_portability_h include st) mode →
  preprocess (after_windows_portability_h include st)
    (pre ++ [TIdent "getpid"] ++ post)
  = preprocess (after_windows_portability_h include st)
      (pre ++ [TIdent "_getpid"] ++ post) ∧
  preprocess (after_windows_portability_h include st)
    (pre ++ [TIdent "access"] ++ post)
  = preprocess (after_windows_portability_h include st)
      (pre ++ [TIdent "_access"] ++ post) ∧
  preprocess (after_windows_portability_h include st)
    (pre ++ call "mkdir" [name; mode] ++ post)
  = preprocess (after_windows_portability_h include st)
      (pre ++ call "_mkdir" [name] ++ post).
Proof.
  intros Hguard Hwin Hkeeps Hcrt Hname Hmode.
  destruct (windows_portability_h_posix include st Hguard Hwin Hkeeps)
    as (Hgetpid & Hmkdir & Haccess).
  fold (after_windows_portability_h include st) in Hgetpid, Hmkdir, Haccess.
  apply Forall_cons in Hcrt as [Cgetpid Hcrt].
  apply Forall_cons in Hcrt as [Cmkdir Hcrt].
  apply Forall_cons in Hcrt as [Caccess _].
  repeat split; apply preprocess_replace; intros s.
  - by apply scan_renamed.
  - by apply scan_renamed.
  - by apply scan_mkdir.
Qed.

(** C9: under [_WIN32] the invocation [mkdir(name, mode)] is replaced by
    [_mkdir(name)], without the mode: with any two modes in the same place
    the text preprocesses to the same tokens. *)
Theorem mkdir_mode_discarded (include : string → directive) (st : pp)
  (pre post name mode1 mode2 : list token) :
  defined (pp_macros st) "WINDOWS_PORTABILITY_H" = false →
  defined (pp_macros st) "_WIN32" = true →
  Forall (keeps include) posix_names →
  no_macro (after_windows_portability_h include st) crt_names →
  argument (after_windows_portability_h include st) name →
  argument (after_windows_portability_h include st) mode1 →
  argument (after_windows_portability_h include st) mode2 →
  preprocess (after_windows_portability_h include st)
    (call "mkdir" [name; mode1])
  = Some (call "_mkdir" [name]) ∧
  preprocess (after_windows_portability_h include st)
    (pre ++ call "mkdir" [name; mode1] ++ post)
  = preprocess (after_windows_portability_h include st)
      (pre ++ call "mkdir" [name; mode2] ++ post).
Proof.
  intros Hguard Hwin Hkeeps Hcrt Hname Hmode1 Hmode2.
  destruct (windows_portability_h_posix include st Hguard Hwin Hkeeps)
    as (_ & Hmkdir & _).
  fold (after_windows_portability_h include st) in Hmkdir.
  apply Forall_cons in Hcrt as [_ Hcrt].
  apply Forall_cons in Hcrt as [Cmkdir _].
  split.
  - unfold preprocess.
    rewrite (scan_mkdir _ name mode1 scan_start Hmkdir Cmkdir Hname Hmode1).
    by rewrite (scan_plain_call _ "_mkdir" name scan_start Cmkdir Hname).
  - apply preprocess_replace. intros s.
    rewrite (scan_mkdir _ name mode1 s Hmkdir Cmkdir Hname Hmode1).
    by rewrite (scan_mkdir _ name mode2 s Hmkdir Cmkdir Hname Hmode2).
Qed.

(** C5, as the header has it: under [_WIN32], with a compiler that does not
    define [__GNUC__], [__attribute__(x)] is a macro with an empty
    replacement list; for every argument [x] its invocation puts out
    nothing, so a text that starts with it preprocesses as the text
    without it. *)
Theorem attribute_neutralized_on_windows (include : string → directive)
  (st : pp) (x post : list token) :
  defined (pp_macros st) "WINDOWS_PORTABILITY_H" = false →
  defined (pp_macros st) "_WIN32" = true →
  defined (pp_macros st) "__GNUC__" = false →
  keeps include "__GNUC__" →
  argument (after_windows_portability_h include st) x →
  after_windows_portability_h include st !! "__attribute__"
  = Some (function_like ["x"] []) ∧
  (∀ s, scan_tokens (after_windows_portability_h include st) s
          (call "__attribute__" [x])
        = Some (settle s)) ∧
  preprocess (after_windows_portability_h include st)
    (call "__attribute__" [x] ++ post)
  = preprocess (after_windows_portability_h include st) post.
Proof.
  intros Hguard Hwin Hgnuc Hkeeps Hx.
  pose proof (windows_portability_h_attribute include st Hguard Hwin Hgnuc Hkeeps)
    as Hattr.
  fold (after_windows_portability_h include st) in Hattr.
  assert (Hscan : ∀ s, scan_tokens (after_windows_portability_h include st) s
                         (call "__attribute__" [x]) = Some (settle s)).
  { intros s.
    rewrite (scan_call _ "__attribute__" _ _ [x] s Hattr);
      [| done | by repeat apply Forall_cons_2 | done].
    unfold subst. simpl. by rewrite put_nil. }
  repeat split; [done | done |].
  unfold preprocess. by rewrite scan_tokens_app, Hscan.
Qed.

Lemma linker_libs_app (a b : list item) :
  linker_libs (a ++ b) = linker_libs a ++ linker_libs b.
Proof. unfold linker_libs. apply omap_app. Qed.

(** C6, as the header has it: [common_windows.h] adds linker directives
    only under [_WIN32] with a compiler that does not define [__GNUC__]:
    those for [brotlienc.lib] and [brotlidec.lib], and a third, for
    [libiomp5md.lib], exactly when [_OPENMP] is defined; under any other
    toolchain, and on a second inclusion, it adds none. The macros are
    those in effect after [common.h]. *)
Theorem common_windows_h_linker_directives (include : string → directive)
  (st : pp) :
  linker_libs (pp_out (common_windows_h include st))
  = if defined (pp_macros st) "COMMON_WINDOWS_H" then linker_libs (pp_out st)
    else
      let st1 := include "common.h"
                   (define "COMMON_WINDOWS_H" (object_like []) st) in
      linker_libs (pp_out st1) ++
      if defined (pp_macros st1) "_WIN32"
         && negb (defined (pp_macros st1) "__GNUC__")
      then ["brotlienc.lib"; "brotlidec.lib"] ++
           (if defined (pp_macros st1) "_OPENMP"
            then ["libiomp5md.lib"] else [])
      else [].
Proof.
  unfold common_windows_h. unfold ifndef at 1. unfold ifdef at 1.
  destruct (defined (pp_macros st) "COMMON_WINDOWS_H"); [done|].
  cbn [group foldl].
  set (st1 := include "common.h" _). cbv zeta.
  unfold ifndef, ifdef.
  destruct (defined (pp_macros st1) "_WIN32"); cbn [group foldl andb];
    [|by rewrite app_nil_r].
  destruct (defined (pp_macros st1) "__GNUC__"); cbn [group foldl negb];
    [by rewrite app_nil_r|].
  cbn [pragma_comment_lib emit pp_macros pp_out].
  destruct (defined (pp_macros st1) "_OPENMP");
    cbn [group foldl pragma_comment_lib emit pp_macros pp_out];
    rewrite !linker_libs_app; simpl; by rewrite <- ?app_assoc.
Qed.

(** ** The sample toolchains *)

Lemma empty_files_keep (x : string) : keeps empty_files x.
Proof. by intros f st. Qed.

Lemma sample_crt_names :
  no_macro (after_windows_portability_h empty_files (PP msvc [])) crt_names.
Proof. repeat constructor; by vm_compute. Qed.

Lemma sample_argument (ts : list token) :
  ts ∈ [sample_name; sample_mode; sample_attribute] →
  argument (after_windows_portability_h empty_files (PP msvc [])) ts.
Proof.
  intros Hts. repeat (apply elem_of_cons in Hts as [->|Hts]);
    [| | | by apply elem_of_nil in Hts];
    (split; [repeat constructor; by vm_compute | done]).
Qed.

Example preprocess_sample :
  preprocess (after_windows_portability_h empty_files (PP msvc []))
    (call "mkdir" [sample_name; sample_mode] ++
     [TOther ";"; TIdent "getpid"; TLParen; TRParen; TOther ";"] ++
     call "__attribute__" [sample_attribute] ++ [TIdent "access"])
  = Some (call "_mkdir" [sample_name] ++
          [TOther ";"; TIdent "_getpid"; TLParen; TRParen; TOther ";";
           TIdent "_access"]).
Proof. by vm_compute. Qed.

(** C4 for MSVC: the calls [getpid()], [access()] and
    [mkdir(path, 0755)()]. *)
Lemma posix_names_resolve_witness :
  preprocess (after_windows_portability_h empty_files (PP msvc []))
    ([] ++ [TIdent "getpid"] ++ [TLParen; TRParen])
  = preprocess (after_windows_portability_h empty_files (PP msvc []))
      ([] ++ [TIdent "_getpid"] ++ [TLParen; TRParen]) ∧
  preprocess (after_windows_portability_h empty_files (PP msvc []))
    ([] ++ [TIdent "access"] ++ [TLParen; TRParen])
  = preprocess (after_windows_portability_h empty_files (PP msvc []))
      ([] ++ [TIdent "_access"] ++ [TLParen; TRParen]) ∧
  preprocess (after_windows_portability_h empty_files (PP msvc []))
    ([] ++ call "mkdir" [sample_name; sample_mode] ++ [TLParen; TRParen])
  = preprocess (after_windows_portability_h empty_files (PP msvc []))
      ([] ++ call "_mkdir" [sample_name] ++ [TLParen; TRParen]).
Proof.
  apply (posix_names_resolve empty_files (PP msvc []) [] [TLParen; TRParen]
           sample_name sample_mode).
  - reflexivity.
  - reflexivity.
  - repeat constructor; apply empty_files_keep.
  - exact sample_crt_names.
  - apply sample_argument. set_solver.
  - apply sample_argument. set_solver.
Defined.

(** C9 for MSVC: the modes [0755] and [(constructor)]. *)
Lemma mkdir_mode_discarded_witness :
  preprocess (after_windows_portability_h empty_files (PP msvc []))
    (call "mkdir" [sample_name; sample_mode])
  = Some (call "_mkdir" [sample_name]) ∧
  preprocess (after_windows_portability_h empty_files (PP msvc []))
    ([] ++ call "mkdir" [sample_name; sample_mode] ++ [])
  = preprocess (after_windows_portability_h empty_files (PP msvc []))
      ([] ++ call "mkdir" [sample_name; sample_attribute] ++ []).
Proof.
  apply (mkdir_mode_discarded empty_files (PP msvc []) [] []
           sample_name sample_mode sample_attribute).
  - reflexivity.
  - reflexivity.
  - repeat constructor; apply empty_files_keep.
  - exact sample_crt_names.
  - apply sample_argument. set_solver.
  - apply sample_argument. set_solver.
  - apply sample_argument. set_solver.
Defined.

(** C5 for MSVC: [__attribute__((constructor)) static]. *)
Lemma attribute_neutralized_on_windows_witness :
  after_windows_portability_h empty_files (PP msvc []) !! "__attribute__"
  = Some (function_like ["x"] []) ∧
  (∀ s, scan_tokens (after_windows_portability_h empty_files (PP msvc [])) s
          (call "__attribute__" [sample_attribute])
        = Some (settle s)) ∧
  preprocess (after_windows_portability_h empty_files (PP msvc []))
    (call "__attribute__" [sample_attribute] ++ [TIdent "static"])
  = preprocess (after_windows_portability_h empty_files (PP msvc []))
      [TIdent "static"].
Proof.
  apply (attribute_neutralized_on_windows empty_files (PP msvc [])
           sample_attribute [TIdent "static"]).
  - reflexivity.
  - reflexivity.
  - reflexivity.
  - apply empty_files_keep.
  - apply sample_argument. set_solver.
Defined.

(** C4 as the specification has it fails under MSVC. A [mkdir] that is
    not invoked, as in [f = mkdir;], is not redirected: the name stays
    [mkdir]. The one-argument [mkdir(path)] of the Windows headers does not
    preprocess. And [mkdir(path, 0755)] becomes [_mkdir(path)], which is
    not [_mkdir] on the same arguments. *)
Lemma mkdir_not_every_use :
  preprocess (after_windows_portability_h empty_files (PP msvc []))
    [TIdent "f"; TOther "="; TIdent "mkdir"; TOther ";"]
  = Some [TIdent "f"; TOther "="; TIdent "mkdir"; TOther ";"] ∧
  preprocess (after_windows_portability_h empty_files (PP msvc []))
    [TIdent "f"; TOther "="; TIdent "mkdir"; TOther ";"]
  ≠ preprocess (after_windows_portability_h empty_files (PP msvc []))
      [TIdent "f"; TOther "="; TIdent "_mkdir"; TOther ";"] ∧
  preprocess (after_windows_portability_h empty_files (PP msvc []))
    (call "mkdir" [sample_name])
  = None ∧
  preprocess (after_windows_portability_h empty_files (PP msvc []))
    (call "mkdir" [sample_name; sample_mode])
  = Some (call "_mkdir" [sample_name]) ∧
  preprocess (after_windows_portability_h empty_files (PP msvc []))
    (call "mkdir" [sample_name; sample_mode])
  ≠ preprocess (after_windows_portability_h empty_files (PP msvc []))
      (call "_mkdir" [sample_name; sample_mode]).
Proof. repeat split; by vm_compute. Qed.

(** C5 as the specification has it fails with a compiler that is not GCC on
    a system that is not Windows: the header leaves [__attribute__]
    undefined there, and an attribute is put out as it is written. *)
Lemma attribute_kept_off_windows :
  defined unix_cc "__GNUC__" = false ∧
  after_windows_portability_h empty_files (PP unix_cc []) !! "__attribute__"
  = None ∧
  preprocess (after_windows_portability_h empty_files (PP unix_cc []))
    (call "__attribute__" [sample_attribute])
  = Some (call "__attribute__" [sample_attribute]) ∧
  preprocess (after_windows_portability_h empty_files (PP unix_cc []))
    (call "__attribute__" [sample_attribute])
  ≠ Some [].
Proof. repeat split; by vm_compute. Qed.

(** C6 as the specification has it fails: with MSVC and OpenMP the header
    gives three linker directives, not two; with MSVC alone it gives two,
    and neither is for the OpenMP runtime. *)
Lemma linker_directives_not_two :
  linker_libs (pp_out (common_windows_h empty_files (PP msvc_openmp [])))
  = ["brotlienc.lib"; "brotlidec.lib"; "libiomp5md.lib"] ∧
  length (linker_libs
            (pp_out (common_windows_h empty_files (PP msvc_openmp []))))
  ≠ 2%nat ∧
  linker_libs (pp_out (common_windows_h empty_files (PP msvc [])))
  = ["brotlienc.lib"; "brotlidec.lib"].
Proof. repeat split; by vm_compute. Qed.

(** ** Names the header leaves alone *)

(** The header defines no macro but its five: whatever the toolchain, and
    on a first inclusion or a later one, every other name that the included
    files leave alone is the macro after the header that it was before, or
    is as undefined. *)
Theorem windows_portability_h_other_names (include : string → directive)
  (st : pp) (x : string) :
  x ∉ header_names → keeps include x →
  after_windows_portability_h include st !! x = pp_macros st !! x.
Proof.
  intros Hx Hkeeps. unfold header_names in Hx.
  repeat (apply not_elem_of_cons in Hx as [? Hx]).
  unfold after_windows_portability_h, windows_portability_h.
  unfold ifndef at 1. unfold ifdef at 1.
  destruct (defined (pp_macros st) "WINDOWS_PORTABILITY_H"); [done|].
  cbn [group foldl]. unfold ifdef at 1.
  destruct (defined _ "_WIN32"); cbn [group foldl].
  - unfold ifndef, ifdef.
    destruct (defined _ "__GNUC__"); cbn [group foldl define emit pp_macros];
      rewrite ?lookup_insert_ne by done; rewrite !Hkeeps;
      cbn [define pp_macros]; rewrite !lookup_insert_ne by done;
      rewrite !Hkeeps; cbn [define pp_macros];
      by rewrite lookup_insert_ne by done.
  - rewrite !Hkeeps. cbn [define pp_macros].
    by rewrite lookup_insert_ne by done.
Qed.

(** Without [_WIN32] the header defines its include guard and nothing else:
    [getpid], [mkdir], [access] and [__attribute__] are after the header
    what they were before it, as far as the included files leave them
    alone. *)
Theorem windows_portability_h_guard_only_off_windows
  (include : string → directive) (st : pp) (x : string) :
  defined (pp_macros st) "_WIN32" = false →
  x ≠ "WINDOWS_PORTABILITY_H" → keeps include x →
  after_windows_portability_h include st !! x = pp_macros st !! x.
Proof.
  intros Hwin Hx Hkeeps.
  unfold after_windows_portability_h, windows_portability_h.
  unfold ifndef at 1. unfold ifdef at 1.
  destruct (defined (pp_macros st) "WINDOWS_PORTABILITY_H"); [done|].
  cbn [group foldl]. unfold ifdef at 1.
  cbn [define pp_macros]. rewrite defined_insert_ne by done.
  rewrite Hwin. cbn [group foldl].
  rewrite !Hkeeps. cbn [define pp_macros].
  by rewrite lookup_insert_ne by done.
Qed.

(** ** Include guards *)

Lemma windows_portability_h_guard (include : string → directive) (st : pp) :
  keeps include "WINDOWS_PORTABILITY_H" →
  defined (pp_macros (windows_portability_h include st))
    "WINDOWS_PORTABILITY_H" = true.
Proof.
  intros Hkeeps. apply bool_decide_eq_true.
  unfold windows_portability_h.
  unfold ifndef at 1. unfold ifdef at 1.
  destruct (defined (pp_macros st) "WINDOWS_PORTABILITY_H") eqn:Hg.
  { by apply bool_decide_eq_true in Hg. }
  cbn [group foldl]. unfold ifdef at 1.
  destruct (defined _ "_WIN32"); cbn [group foldl].
  - unfold ifndef, ifdef.
    destruct (defined _ "__GNUC__"); cbn [group foldl define emit pp_macros];
      rewrite ?lookup_insert_ne by done; rewrite !Hkeeps;
      cbn [define pp_macros]; rewrite !lookup_insert_ne by done;
      rewrite !Hkeeps; cbn [define pp_macros];
      by rewrite lookup_insert_eq.
  - rewrite !Hkeeps. cbn [define pp_macros]. by rewrite lookup_insert_eq.
Qed.

(** A second inclusion of [windows_portability.h] does nothing: no macro is
    defined again and [strerror_r] is not defined a second time. *)
Theorem windows_portability_h_idempotent (include : string → directive)
  (st : pp) :
  keeps include "WINDOWS_PORTABILITY_H" →
  windows_portability_h include (windows_portability_h include st)
  = windows_portability_h include st.
Proof.
  intros Hkeeps.
  pose proof (windows_portability_h_guard include st Hkeeps) as Hg.
  set (st' := windows_portability_h include st) in *.
  unfold windows_portability_h at 1. unfold ifndef at 1. unfold ifdef at 1.
  by rewrite Hg.
Qed.

(** A second inclusion of [common_windows.h] does nothing: [common.h] is
    not read again and no linker directive is repeated. *)
Theorem common_windows_h_idempotent (include : string → directive) (st : pp) :
  keeps include "COMMON_WINDOWS_H" →
  common_windows_h include (common_windows_h include st)
  = common_windows_h include st.
Proof.
  intros Hkeeps.
  assert (Hg : defined (pp_macros (common_windows_h include st))
                 "COMMON_WINDOWS_H" = true).
  { apply bool_decide_eq_true.
    unfold common_windows_h. unfold ifndef at 1. unfold ifdef at 1.
    destruct (defined (pp_macros st) "COMMON_WINDOWS_H") eqn:Hg.
    { by apply bool_decide_eq_true in Hg. }
    cbn [group foldl]. unfold ifndef, ifdef.
    repeat (match goal with
            | |- context [if defined ?D ?n then _ else _] =>
                destruct (defined D n)
            end; cbn [group foldl pragma_comment_lib emit pp_macros]);
      rewrite Hkeeps; cbn [define pp_macros]; by rewrite lookup_insert_eq. }
  set (st' := common_windows_h include st) in *.
  unfold common_windows_h at 1. unfold ifndef at 1. unfold ifdef at 1.
  by rewrite Hg.
Qed.

(** ** Uses of [mkdir] that are not two-argument invocations *)




Lemma put_after (o ts : list token) (s : scan) :
  put ts (scan_after o s) = scan_after o (put ts s).
Proof.
  destruct s as [out [|[ps body d args cur] fs] pending];
    unfold put, scan_after; simpl; by rewrite ?app_assoc.
Qed.

Lemma scan_plain_after (D : macros) (o : list token) (s : scan) (t : token) :
  scan_plain D (scan_after o s) t = scan_after o <$> scan_plain D s t.
Proof.
  unfold scan_plain, scan_after, put.
  destruct s as [out [|[ps body [|d] args cur] fs] pending];
    destruct t as [x| | | |x]; simpl;
    repeat case_match; simpl; rewrite ?app_assoc; done.
Qed.

Lemma scan_token_after (D : macros) (o : list token) (s : scan) (t : token) :
  scan_token D (scan_after o s) t = scan_after o <$> scan_token D s t.
Proof.
  unfold scan_token. simpl.
  destruct (s_pending s) as [[[x ps] body]|]; [|apply scan_plain_after].
  destruct t; try done;
    change (Scan (o ++ s_out s) (s_stack s) None)
      with (scan_after o (Scan (s_out s) (s_stack s) None));
    by rewrite put_after, scan_plain_after.
Qed.

Lemma scan_tokens_after (D : macros) (o ts : list token) : ∀ s,
  scan_tokens D (scan_after o s) ts = scan_after o <$> scan_tokens D s ts.
Proof.
  induction ts as [|t ts IH]; intros s; [done|].
  rewrite !scan_tokens_cons, scan_token_after.
  destruct (scan_token D s t) as [s'|]; [|done]. simpl. apply IH.
Qed.

Lemma scan_end_after (o : list token) (s : scan) :
  scan_end (scan_after o s) = (o ++.) <$> scan_end s.
Proof.
  unfold scan_end, scan_after. simpl.
  destruct (s_stack s); [|done].
  destruct (s_pending s) as [[[x ps] body]|]; simpl; by rewrite ?app_assoc.
Qed.

Lemma put_pending (ts : list token) (s : scan) :
  s_pending (put ts s) = s_pending s.
Proof. by destruct s as [out [|[ps body d args cur] fs] pending]. Qed.

Lemma settle_idle (s : scan) : s_pending s = None → settle s = s.
Proof. unfold settle. by intros ->. Qed.

(** After the header under [_WIN32], a [mkdir] that no left parenthesis
    follows is not redirected: the name is put out as it is written and
    scanning goes on with the next token; so a text that starts with such a
    [mkdir] preprocesses to [mkdir] and what the rest preprocesses to. *)
Theorem mkdir_without_invocation (include : string → directive) (st : pp)
  (t : token) (post : list token) :
  defined (pp_macros st) "WINDOWS_PORTABILITY_H" = false →
  defined (pp_macros st) "_WIN32" = true →
  Forall (keeps include) posix_names →
  t ≠ TLParen →
  (∀ s, scan_tokens (after_windows_portability_h include st) s
          (TIdent "mkdir" :: t :: post)
        = scan_tokens (after_windows_portability_h include st)
            (put [TIdent "mkdir"] (settle s)) (t :: post)) ∧
  preprocess (after_windows_portability_h include st)
    (TIdent "mkdir" :: t :: post)
  = (TIdent "mkdir" ::.)
      <$> preprocess (after_windows_portability_h include st) (t :: post).
Proof.
  intros Hguard Hwin Hkeeps Ht.
  destruct (windows_portability_h_posix include st Hguard Hwin Hkeeps)
    as (_ & Hmkdir & _).
  fold (after_windows_portability_h include st) in Hmkdir.
  set (D := after_windows_portability_h include st) in *.
  assert (Hscan : ∀ s, scan_tokens D s (TIdent "mkdir" :: t :: post)
                       = scan_tokens D (put [TIdent "mkdir"] (settle s))
                           (t :: post)).
  { intros s. rewrite (scan_tokens_cons D s).
    rewrite (scan_token_settle D s (TIdent "mkdir")) by done.
    pose proof (settle_pending s) as Hidle.
    destruct (settle s) as [out fs pending]. simpl in Hidle. subst pending.
    unfold scan_plain at 1. rewrite Hmkdir. cbn.
    rewrite (scan_token_settle D _ t Ht).
    rewrite (settle_idle (put _ _)) by (by rewrite put_pending).
    by destruct t. }
  split; [done|].
  unfold preprocess. rewrite Hscan.
  change (put [TIdent "mkdir"] (settle scan_start))
    with (scan_after [TIdent "mkdir"] scan_start).
  rewrite scan_tokens_after.
  destruct (scan_tokens D scan_start (t :: post)) as [s'|]; [|done]. simpl.
  by rewrite scan_end_after.
Qed.

(** ** Attributes with GCC on Windows *)

Lemma preprocess_plain (D : macros) (ts : list token) :
  Forall (plain D) ts → preprocess D ts = Some ts.
Proof.
  intros Hts. unfold preprocess, scan_start.
  by rewrite (scan_plain_top D ts Hts).
Qed.

(** Under [_WIN32] with a compiler that defines [__GNUC__] (MinGW), the
    header does not define [__attribute__]: an attribute that names no
    macro is put out as it is written, for the compiler to read. The
    header's own [access] is a macro, though: GCC's attribute
    [access(...)] reaches the compiler as [_access(...)]. *)
Theorem attribute_kept_for_gcc (include : string → directive) (st : pp)
  (x a : list token) :
  defined (pp_macros st) "WINDOWS_PORTABILITY_H" = false →
  defined (pp_macros st) "_WIN32" = true →
  defined (pp_macros st) "__GNUC__" = true →
  keeps include "__GNUC__" → keeps include "__attribute__" →
  Forall (keeps include) posix_names →
  pp_macros st !! "__attribute__" = None →
  after_windows_portability_h include st !! "_access" = None →
  argument (after_windows_portability_h include st) x →
  Forall (plain (after_windows_portability_h include st)) a →
  after_windows_portability_h include st !! "__attribute__" = None ∧
  (∀ s, scan_tokens (after_windows_portability_h include st) s
          (call "__attribute__" [x])
        = Some (put (call "__attribute__" [x]) (settle s))) ∧
  preprocess (after_windows_portability_h include st)
    (call "__attribute__" [x])
  = Some (call "__attribute__" [x]) ∧
  preprocess (after_windows_portability_h include st)
    (call "__attribute__" [TLParen :: call "access" [a] ++ [TRParen]])
  = Some (call "__attribute__" [TLParen :: call "_access" [a] ++ [TRParen]]).
Proof.
  intros Hguard Hwin Hgnuc Kgnuc Kattr Hkeeps Hattr Caccess Hx Ha.
  assert (Hnone : after_windows_portability_h include st !! "__attribute__"
                  = None).
  { unfold after_windows_portability_h.
    rewrite windows_portability_h_win32 by done.
    unfold ifndef, ifdef.
    match goal with |- context [defined ?D "__GNUC__"] =>
      assert (HD : defined D "__GNUC__" = true) end.
    { etrans; [|exact Hgnuc]. unfold defined. cbn [emit pp_macros].
      rewrite !Kgnuc. cbn [define pp_macros].
      rewrite !lookup_insert_ne by done. rewrite !Kgnuc.
      cbn [define pp_macros]. by rewrite lookup_insert_ne by done. }
    rewrite HD. cbn [group foldl emit pp_macros].
    rewrite !Kattr. cbn [define pp_macros].
    rewrite !lookup_insert_ne by done. rewrite !Kattr.
    cbn [define pp_macros]. by rewrite lookup_insert_ne by done. }
  destruct (windows_portability_h_posix include st Hguard Hwin Hkeeps)
    as (_ & _ & Haccess).
  fold (after_windows_portability_h include st) in Haccess.
  set (D := after_windows_portability_h include st) in *.
  split; [done|].
  split; [intros s; by apply scan_plain_call|].
  split; [unfold preprocess; by rewrite scan_plain_call|].
  assert (Htext : ∀ f,
            call "__attribute__" [TLParen :: call f [a] ++ [TRParen]]
            = [TIdent "__attribute__"; TLParen; TLParen] ++ [TIdent f] ++
              TLParen :: a ++ [TRParen; TRParen; TRParen]).
  { intros f. unfold call. simpl. by rewrite <- !app_assoc. }
  rewrite !Htext.
  rewrite (preprocess_replace D [TIdent "access"] [TIdent "_access"])
    by (intros s; by apply scan_renamed).
  apply preprocess_plain.
  repeat first [ apply Forall_cons; split; [done|]
               | apply Forall_app; split; [done|] ].
  by repeat constructor.
Qed.

(** ** Successive calls of the shim *)

Lemma inserts_twice (o : nat) (new bs : list ascii) :
  (o + length new <= length bs)%nat →
  list_inserts o new (list_inserts o new bs) = list_inserts o new bs.
Proof.
  intros Hlen. apply list_eq. intros i.
  destruct (decide (i < o)%nat).
  { by rewrite !list_lookup_inserts_lt by done. }
  destruct (decide (o + length new <= i)%nat).
  { by rewrite !list_lookup_inserts_ge by done. }
  rewrite !list_lookup_inserts by (rewrite ?length_inserts; lia). done.
Qed.

(** A second call with the same arguments changes nothing: it returns the
    same pointer and leaves the memory as the first call left it. *)
Theorem strerror_r_twice (rt : runtime) (D : macros) (m : mem)
  (errnum : Z) (buf : ptr) (n : Z) :
  messages_are_strings rt → caller_buffer rt m buf n →
  1 ≤ n → is_size_t rt n →
  ∃ m', strerror_r rt D m errnum buf n = Ok (buf, m') ∧
        strerror_r rt D m' errnum buf n = Ok (buf, m').
Proof.
  intros Hstr [Hv Hown] Hn Hsz.
  destruct buf as [|b o]; [done|]. simpl in Hv.
  destruct Hv as (bs & Hb & Ho & _ & Hfit).
  assert (Hne : b ≠ strerror_buffer rt) by (intros ->; by apply (Hown o)).
  destruct (defined D "_MSC_VER") eqn:HD.
  - pose proof (length_secure_copy rt (sys_errmsg rt errnum) n Hn) as Hlen.
    rewrite (strerror_r_secure rt D m errnum b o bs n HD Hb Ho Hn Hfit).
    eexists. split; [done|].
    erewrite strerror_r_secure;
      [| done | by rewrite lookup_insert_eq | done | done
       | by rewrite length_inserts].
    rewrite insert_insert_eq. by rewrite inserts_twice by lia.
  - pose proof (length_bounded_copy (sys_errmsg rt errnum) n Hn) as Hlen.
    rewrite (strerror_r_copy rt D m errnum b o bs n HD Hstr Hb Hne Ho Hn Hsz Hfit).
    eexists. split; [done|].
    erewrite strerror_r_copy;
      [| done | done | by rewrite lookup_insert_eq | done | done | done | done
       | by rewrite length_inserts].
    rewrite inserts_twice by lia. unfold strerror. simpl.
    do 2 f_equal. apply map_eq. intros k.
    destruct (decide (k = b)) as [->|Hkb].
    { by rewrite !lookup_insert_eq. }
    rewrite !(lookup_insert_ne _ b k) by done.
    destruct (decide (k = strerror_buffer rt)) as [->|Hks].
    { by rewrite !lookup_insert_eq. }
    rewrite !(lookup_insert_ne _ (strerror_buffer rt) k) by done.
    by rewrite !lookup_insert_ne by done.
Qed.

Lemma writes_within_valid (m m' : mem) (p q : ptr) (n k : Z) :
  writes_within m m' p n → valid_buffer m q k → valid_buffer m' q k.
Proof.
  destruct p as [|b o]; simpl; [by intros ->|].
  intros (Hother & bs & bs' & Hb & Hb' & Hlen & _).
  destruct q as [|b1 o1]; [done|]. simpl.
  intros (bs1 & Hb1 & Hrest).
  destruct (decide (b1 = b)) as [->|Hne].
  - exists bs'. split; [done|]. rewrite Hlen. congruence.
  - exists bs1. split; [|done]. by rewrite Hother.
Qed.

(** Bytes that do not overlap the bytes written are as they were. *)
Lemma writes_within_bytes_at (m m' : mem) (p q : ptr) (n k : Z) :
  writes_within m m' p n → disjoint_buffers q k p n →
  bytes_at m' q k = bytes_at m q k.
Proof.
  destruct p as [|b o]; simpl; [by intros ->|].
  intros (Hother & bs & bs' & Hb & Hb' & Hlen & Hsame).
  destruct q as [|b1 o1]; [done|]. simpl. intros Hdis.
  destruct (decide (b1 = b)) as [->|Hne]; [|by rewrite Hother].
  rewrite Hb, Hb', Hlen.
  case_decide as Hin; [|done]. f_equal.
  destruct Hdis as [Hdis|Hdis]; [done|].
  apply list_eq. intros i. rewrite !lookup_take, !lookup_drop.
  case_decide; [|done]. apply Hsame. lia.
Qed.

(** Two calls into buffers that do not overlap: after the second call each
    buffer holds the string of its own call; the second call, and the
    [strerror] inside it, leave the first result as it was. *)
Theorem strerror_r_results_independent (rt : runtime) (D : macros) (m : mem)
  (errnum1 errnum2 : Z) (buf1 buf2 : ptr) (n1 n2 : Z) :
  messages_are_strings rt →
  caller_buffer rt m buf1 n1 → caller_buffer rt m buf2 n2 →
  disjoint_buffers buf1 n1 buf2 n2 →
  1 ≤ n1 → is_size_t rt n1 → 1 ≤ n2 → is_size_t rt n2 →
  ∃ m1 m2,
    strerror_r rt D m errnum1 buf1 n1 = Ok (buf1, m1) ∧
    strerror_r rt D m1 errnum2 buf2 n2 = Ok (buf2, m2) ∧
    string_at m2 buf1 n1 = Some (truncation (sys_errmsg rt errnum1) n1) ∧
    string_at m2 buf2 n2 = Some (truncation (sys_errmsg rt errnum2) n2).
Proof.
  intros Hstr Hbuf1 Hbuf2 Hdis Hn1 Hsz1 Hn2 Hsz2.
  destruct (strerror_r_string_at rt D m errnum1 buf1 n1 Hstr Hbuf1 Hn1 Hsz1)
    as (m1 & Hrun1 & Hs1 & Hw1).
  assert (Hbuf2' : caller_buffer rt m1 buf2 n2).
  { split; [|apply Hbuf2].
    eapply writes_within_valid; [exact Hw1|].
    by apply caller_buffer_runtime_state. }
  destruct (strerror_r_string_at rt D m1 errnum2 buf2 n2 Hstr Hbuf2' Hn2 Hsz2)
    as (m2 & Hrun2 & Hs2 & Hw2).
  exists m1, m2. repeat split; try done.
  rewrite <- Hs1. unfold string_at. f_equal.
  rewrite (writes_within_bytes_at _ m2 buf2 buf1 n2 n1 Hw2 Hdis).
  destruct Hbuf1 as [_ Hown]. destruct buf1 as [|b1 o1]; [done|].
  unfold bytes_at. rewrite runtime_state_other; [done|].
  intros ->. by apply (Hown o1).
Qed.

(** ** A null buffer *)

(** The shim has no check of its own for a null buffer: compiled by MSVC the
    call ends in the invalid-parameter failure of [strerror_s]; compiled by
    another compiler the null pointer is stored through, whatever the
    length, [strerror] having been called first. *)
Theorem strerror_r_null_buffer (rt : runtime) (D : macros) (m : mem)
  (errnum n : Z) :
  strerror_r rt D m errnum NULL n
  = Fault (if defined D "_MSC_VER" then InvalidParameter else NullDeref).
Proof.
  unfold strerror_r. destruct (defined D "_MSC_VER"); [done|].
  unfold strerror, strncpy.
  destruct (Z.to_nat n) as [|k]; [done|].
  cbn [strncpy_from ptr_add].
  destruct (sys_errmsg rt errnum) as [|c text];
    (erewrite load_ok; [done | by rewrite lookup_insert_eq | done | done]).
Qed.

(** ** A length that overstates the buffer *)

Lemma store_from_fault (cs : list ascii) : ∀ (m : mem) b o i bs,
  m !! b = Some bs → 0 ≤ o + i ≤ Z.of_nat (length bs) →
  Z.of_nat (length bs) < o + i + Z.of_nat (length cs) →
  store_from m (Ptr b o) i cs
  = Fault (OutOfBounds b (Z.of_nat (length bs))).
Proof.
  induction cs as [|c cs IH]; intros m b o i bs Hb Hlo Hhi; simpl in *; [lia|].
  destruct (decide (o + i = Z.of_nat (length bs))) as [Heq|Hlt].
  - rewrite (store_fault m b (o + i) bs c Hb) by (unfold in_bounds; lia).
    simpl. by rewrite Heq.
  - rewrite (store_ok m b (o + i) bs c Hb) by (unfold in_bounds; lia).
    simpl.
    rewrite (IH _ b o (i + 1) (<[Z.to_nat (o + i) := c]> bs));
      [| by rewrite lookup_insert_eq | rewrite length_insert; lia
       | rewrite length_insert; lia].
    by rewrite length_insert.
Qed.

Lemma strncpy_from_fault (n : nat) :
  ∀ (m : mem) b o bs sb (text rest : list ascii) (k : nat),
  m !! b = Some bs → m !! sb = Some (text ++ NUL :: rest) → sb ≠ b →
  NUL ∉ text → (k <= length text)%nat → 0 ≤ o →
  o + Z.of_nat k ≤ Z.of_nat (length bs) →
  Z.of_nat (length bs) < o + Z.of_nat k + Z.of_nat n →
  strncpy_from m (Ptr b o) (Ptr sb 0) (Z.of_nat k) n
  = Fault (OutOfBounds b (Z.of_nat (length bs))).
Proof.
  induction n as [|n IH];
    intros m b o bs sb text rest k Hb Hsb Hne Hnul Hk Ho Hlo Hhi; [lia|].
  cbn [strncpy_from ptr_add].
  assert (Hidx : Z.to_nat (0 + Z.of_nat k) = k) by lia.
  assert (∃ c, (text ++ NUL :: rest) !! k = Some c ∧
               (c = NUL → k = length text)) as (c & Hc & Hend).
  { destruct (decide (k < length text)%nat) as [Hlt|Hge].
    - destruct (lookup_lt_is_Some_2 text k Hlt) as [c Hc].
      exists c. split; [by rewrite lookup_app_l|].
      intros ->. exfalso. apply Hnul. by eapply list_elem_of_lookup_2.
    - exists NUL. assert (k = length text) as -> by lia.
      split; [by rewrite list_lookup_middle | done]. }
  rewrite (load_ok m sb _ _ c Hsb); [| lia | by rewrite Hidx].
  cbn [mbind res_bind].
  destruct (decide (o + Z.of_nat k = Z.of_nat (length bs))) as [Heq|Hlt].
  { rewrite (store_fault m b _ bs c Hb) by (unfold in_bounds; lia).
    simpl. by rewrite Heq. }
  rewrite (store_ok m b _ bs c Hb) by (unfold in_bounds; lia).
  cbn [mbind res_bind]. case_decide as Hnulc.
  - rewrite fill_from_store_from.
    rewrite (store_from_fault _ _ b o _ (<[Z.to_nat (o + Z.of_nat k) := c]> bs));
      [| by rewrite lookup_insert_eq | rewrite length_insert; lia
       | rewrite length_replicate, length_insert; lia].
    by rewrite length_insert.
  - replace (Z.of_nat k + 1) with (Z.of_nat (S k)) by lia.
    assert (k ≠ length text).
    { intros ->. rewrite list_lookup_middle in Hc by done. congruence. }
    rewrite (IH _ b o (<[Z.to_nat (o + Z.of_nat k) := c]> bs) sb text rest (S k));
      [| by rewrite lookup_insert_eq | by rewrite lookup_insert_ne
       | done | done | lia | done | rewrite length_insert; lia
       | rewrite length_insert; lia].
    by rewrite length_insert.
Qed.

(** Compiled by another compiler than MSVC, the shim writes all [buflen]
    bytes, however short the message: a [buflen] that overstates what is
    left of the object at [buf] takes the stores of [strncpy] past the end
    of the object, and the call stops at its first byte beyond. *)
Theorem strerror_r_length_overstated (rt : runtime) (D : macros) (m : mem)
  (errnum : Z) b o bs (n : Z) :
  defined D "_MSC_VER" = false →
  messages_are_strings rt →
  m !! b = Some bs → b ≠ strerror_buffer rt →
  0 ≤ o ≤ Z.of_nat (length bs) →
  Z.of_nat (length bs) < o + n →
  strerror_r rt D m errnum (Ptr b o) n
  = Fault (OutOfBounds b (Z.of_nat (length bs))).
Proof.
  intros HD Hstr Hb Hne Ho Hn.
  unfold strerror_r. rewrite HD. unfold strerror, strncpy.
  set (text := sys_errmsg rt errnum).
  set (m1 := <[strerror_buffer rt := text ++ [NUL]]> m).
  assert (Hb1 : m1 !! b = Some bs) by (subst m1; by rewrite lookup_insert_ne).
  assert (Hs1 : m1 !! strerror_buffer rt = Some (text ++ [NUL]))
    by (subst m1; by rewrite lookup_insert_eq).
  pose proof (strncpy_from_fault (Z.to_nat n) m1 b o bs (strerror_buffer rt)
                text [] 0%nat Hb1 Hs1) as Hcopy.
  change (Z.of_nat 0) with 0 in Hcopy.
  rewrite Hcopy; [done | done | apply Hstr | lia | lia | lia | lia].
Qed.

(** ** The whole buffer is written *)

(** Compiled by another compiler than MSVC, the shim leaves none of the
    buffer's earlier bytes: the [n] bytes are the message cut to [n - 1]
    characters, and null characters from there to the end. *)
Theorem strerror_r_fills_buffer (rt : runtime) (D : macros) (m : mem)
  (errnum : Z) (buf : ptr) (n : Z) :
  defined D "_MSC_VER" = false →
  messages_are_strings rt → caller_buffer rt m buf n →
  1 ≤ n → is_size_t rt n →
  ∃ m', strerror_r rt D m errnum buf n = Ok (buf, m') ∧
        bytes_at m' buf n
        = Some (truncation (sys_errmsg rt errnum) n ++
                replicate
                  (Z.to_nat n - length (truncation (sys_errmsg rt errnum) n))
                  NUL).
Proof.
  intros HD Hstr Hbuf Hn Hsz.
  destruct (strerror_r_overwrite rt D m errnum buf n Hstr Hbuf Hn Hsz)
    as (m' & Hrun & Hw).
  exists m'. split; [done|].
  apply overwrite_bytes_at in Hw.
  unfold shim_bytes in Hw. rewrite HD in Hw.
  by rewrite length_bounded_copy in Hw.
Qed.

(** ** What the headers produce *)

(** [windows_portability.h] provides [strerror_r] exactly under [_WIN32],
    once, on its first inclusion; without [_WIN32] it provides none, and the
    [strerror_r] of the system stays in force. *)
Theorem strerror_r_provided_under_win32 (include : string → directive)
  (st : pp) :
  quiet include →
  pp_out (windows_portability_h include st)
  = pp_out st ++
    (if negb (defined (pp_macros st) "WINDOWS_PORTABILITY_H")
        && defined (pp_macros st) "_WIN32"
     then [InlineFunction "strerror_r"] else []).
Proof.
  intros Hquiet. unfold windows_portability_h.
  unfold ifndef at 1. unfold ifdef at 1.
  destruct (defined (pp_macros st) "WINDOWS_PORTABILITY_H");
    cbn [negb andb group foldl]; [by rewrite app_nil_r|].
  unfold ifdef at 1. cbn [define pp_macros].
  rewrite defined_insert_ne by done.
  destruct (defined (pp_macros st) "_WIN32"); cbn [group foldl].
  - unfold ifndef, ifdef.
    destruct (defined _ "__GNUC__"); cbn [group foldl define emit pp_out];
      rewrite ?Hquiet; cbn [define pp_out]; by rewrite ?Hquiet.
  - rewrite !Hquiet. cbn [define pp_out]. by rewrite app_nil_r.
Qed.

(** [common_windows.h] adds linker directives and nothing else: after it
    the macros are those in effect after [common.h], with the guard, and the
    items are those of [common.h] followed by the directives. *)
Theorem common_windows_h_adds_directives_only (include : string → directive)
  (st : pp) :
  defined (pp_macros st) "COMMON_WINDOWS_H" = false →
  pp_macros (common_windows_h include st)
  = pp_macros (include "common.h"
                 (define "COMMON_WINDOWS_H" (object_like []) st)) ∧
  ∃ libs,
    pp_out (common_windows_h include st)
    = pp_out (include "common.h"
                (define "COMMON_WINDOWS_H" (object_like []) st))
      ++ (PragmaCommentLib <$> libs).
Proof.
  intros Hguard.
  set (st1 := include "common.h" _).
  assert (∃ libs, common_windows_h include st
                  = PP (pp_macros st1)
                      (pp_out st1 ++ (PragmaCommentLib <$> libs)))
    as [libs ->]; [|split; [done | by exists libs]].
  unfold common_windows_h.
  unfold ifndef at 1. unfold ifdef at 1. rewrite Hguard.
  cbn [group foldl]. fold st1.
  unfold ifndef, ifdef.
  destruct (defined (pp_macros st1) "_WIN32"); cbn [group foldl];
    [|exists []; simpl; rewrite app_nil_r; by destruct st1].
  destruct (defined (pp_macros st1) "__GNUC__"); cbn [group foldl];
    [exists []; simpl; rewrite app_nil_r; by destruct st1|].
  cbn [pragma_comment_lib emit pp_macros pp_out].
  destruct (defined (pp_macros st1) "_OPENMP");
    cbn [group foldl pragma_comment_lib emit pp_macros pp_out].
  - exists ["brotlienc.lib"; "brotlidec.lib"; "libiomp5md.lib"].
    unfold pragma_comment_lib, emit. simpl. by rewrite <- !app_assoc.
  - exists ["brotlienc.lib"; "brotlidec.lib"].
    unfold pragma_comment_lib, emit. simpl. by rewrite <- !app_assoc.
Qed.

(** ** Instances on the sample toolchains and runtime *)

Lemma empty_files_quiet : quiet empty_files.
Proof. by intros f st. Qed.

Lemma sample_caller_buffer2 :
  caller_buffer sample_runtime sample_mem2 sample_buf 8 ∧
  caller_buffer sample_runtime sample_mem2 sample_buf2 4.
Proof.
  split; (split; [|intros o; discriminate]).
  - exists (replicate 8 "x"%char). split; [done|]. simpl. lia.
  - exists (replicate 4 "y"%char). split; [done|]. simpl. lia.
Qed.

Lemma sample_size4 : is_size_t sample_runtime 4.
Proof. unfold is_size_t, SIZE_MAX. simpl. lia. Qed.

(** The macro [_MSC_VER] that MSVC predefines. *)
Lemma windows_portability_h_other_names_witness :
  after_windows_portability_h empty_files (PP msvc []) !! "_MSC_VER"
  = pp_macros (PP msvc []) !! "_MSC_VER".
Proof.
  apply (windows_portability_h_other_names empty_files (PP msvc []) "_MSC_VER").
  - apply (bool_decide_unpack _). by vm_compute.
  - apply empty_files_keep.
Defined.

(** The name [mkdir] with a compiler off Windows. *)
Lemma windows_portability_h_guard_only_off_windows_witness :
  after_windows_portability_h empty_files (PP unix_cc []) !! "mkdir"
  = pp_macros (PP unix_cc []) !! "mkdir".
Proof.
  apply (windows_portability_h_guard_only_off_windows empty_files
           (PP unix_cc []) "mkdir").
  - reflexivity.
  - discriminate.
  - apply empty_files_keep.
Defined.

Lemma windows_portability_h_idempotent_witness :
  windows_portability_h empty_files
    (windows_portability_h empty_files (PP msvc []))
  = windows_portability_h empty_files (PP msvc []).
Proof.
  apply (windows_portability_h_idempotent empty_files (PP msvc [])).
  apply empty_files_keep.
Defined.

Lemma common_windows_h_idempotent_witness :
  common_windows_h empty_files
    (common_windows_h empty_files (PP msvc_openmp []))
  = common_windows_h empty_files (PP msvc_openmp []).
Proof.
  apply (common_windows_h_idempotent empty_files (PP msvc_openmp [])).
  apply empty_files_keep.
Defined.


(** The text [mkdir ;] under MSVC. *)
Lemma mkdir_without_invocation_witness :
  (∀ s, scan_tokens (after_windows_portability_h empty_files (PP msvc [])) s
          (TIdent "mkdir" :: TOther ";" :: [])
        = scan_tokens (after_windows_portability_h empty_files (PP msvc []))
            (put [TIdent "mkdir"] (settle s)) (TOther ";" :: [])) ∧
  preprocess (after_windows_portability_h empty_files (PP msvc []))
    (TIdent "mkdir" :: TOther ";" :: [])
  = (TIdent "mkdir" ::.)
      <$> preprocess (after_windows_portability_h empty_files (PP msvc []))
            (TOther ";" :: []).
Proof.
  apply (mkdir_without_invocation empty_files (PP msvc []) (TOther ";") []).
  - reflexivity.
  - reflexivity.
  - repeat constructor; apply empty_files_keep.
  - discriminate.
Defined.

(** [__attribute__((constructor))] and
    [__attribute__((access(read_only, 1)))] under MinGW. *)
Lemma attribute_kept_for_gcc_witness :
  after_windows_portability_h empty_files (PP mingw []) !! "__attribute__"
  = None ∧
  (∀ s, scan_tokens (after_windows_portability_h empty_files (PP mingw [])) s
          (call "__attribute__" [sample_attribute])
        = Some (put (call "__attribute__" [sample_attribute]) (settle s))) ∧
  preprocess (after_windows_portability_h empty_files (PP mingw []))
    (call "__attribute__" [sample_attribute])
  = Some (call "__attribute__" [sample_attribute]) ∧
  preprocess (after_windows_portability_h empty_files (PP mingw []))
    (call "__attribute__"
       [TLParen :: call "access" [[TIdent "read_only"; TComma; TOther "1"]]
                   ++ [TRParen]])
  = Some (call "__attribute__"
            [TLParen :: call "_access" [[TIdent "read_only"; TComma; TOther "1"]]
                        ++ [TRParen]]).
Proof.
  apply (attribute_kept_for_gcc empty_files (PP mingw []) sample_attribute
           [TIdent "read_only"; TComma; TOther "1"]).
  - reflexivity.
  - reflexivity.
  - reflexivity.
  - apply empty_files_keep.
  - apply empty_files_keep.
  - repeat constructor; apply empty_files_keep.
  - reflexivity.
  - reflexivity.
  - split; [repeat constructor; by vm_compute | done].
  - repeat constructor; by vm_compute.
Defined.

Lemma strerror_r_provided_under_win32_witness :
  pp_out (windows_portability_h empty_files (PP mingw []))
  = pp_out (PP mingw []) ++
    (if negb (defined (pp_macros (PP mingw [])) "WINDOWS_PORTABILITY_H")
        && defined (pp_macros (PP mingw [])) "_WIN32"
     then [InlineFunction "strerror_r"] else []).
Proof.
  apply (strerror_r_provided_under_win32 empty_files (PP mingw [])).
  apply empty_files_quiet.
Defined.

Lemma common_windows_h_adds_directives_only_witness :
  pp_macros (common_windows_h empty_files (PP msvc []))
  = pp_macros (empty_files "common.h"
                 (define "COMMON_WINDOWS_H" (object_like []) (PP msvc []))) ∧
  ∃ libs,
    pp_out (common_windows_h empty_files (PP msvc []))
    = pp_out (empty_files "common.h"
                (define "COMMON_WINDOWS_H" (object_like []) (PP msvc [])))
      ++ (PragmaCommentLib <$> libs).
Proof.
  apply (common_windows_h_adds_directives_only empty_files (PP msvc [])).
  reflexivity.
Defined.

Lemma strerror_r_twice_witness :
  ∃ m', strerror_r sample_runtime mingw sample_mem 2 sample_buf 8
        = Ok (sample_buf, m') ∧
        strerror_r sample_runtime mingw m' 2 sample_buf 8
        = Ok (sample_buf, m').
Proof.
  apply (strerror_r_twice sample_runtime mingw sample_mem 2 sample_buf 8).
  - exact sample_messages.
  - exact sample_caller_buffer.
  - lia.
  - exact sample_size.
Defined.

(** Error 2 into the eight-byte buffer, then error 13 into the four-byte
    one. *)
Lemma strerror_r_results_independent_witness :
  ∃ m1 m2,
    strerror_r sample_runtime mingw sample_mem2 2 sample_buf 8
    = Ok (sample_buf, m1) ∧
    strerror_r sample_runtime mingw m1 13 sample_buf2 4
    = Ok (sample_buf2, m2) ∧
    string_at m2 sample_buf 8
    = Some (truncation (sys_errmsg sample_runtime 2) 8) ∧
    string_at m2 sample_buf2 4
    = Some (truncation (sys_errmsg sample_runtime 13) 4).
Proof.
  apply (strerror_r_results_independent sample_runtime mingw sample_mem2
           2 13 sample_buf sample_buf2 8 4).
  - exact sample_messages.
  - exact (proj1 sample_caller_buffer2).
  - exact (proj2 sample_caller_buffer2).
  - left. discriminate.
  - lia.
  - exact sample_size.
  - lia.
  - exact sample_size4.
Defined.

(** A length of 100 for the eight-byte buffer. *)
Lemma strerror_r_length_overstated_witness :
  strerror_r sample_runtime mingw sample_mem 2 (Ptr 2%positive 0) 100
  = Fault (OutOfBounds 2%positive
             (Z.of_nat (length (replicate 8 "x"%char)))).
Proof.
  apply (strerror_r_length_overstated sample_runtime mingw sample_mem 2
           2%positive 0 (replicate 8 "x"%char) 100).
  - reflexivity.
  - exact sample_messages.
  - reflexivity.
  - discriminate.
  - simpl. lia.
  - simpl. lia.
Defined.

Lemma strerror_r_fills_buffer_witness :
  ∃ m', strerror_r sample_runtime mingw sample_mem 13 sample_buf 8
        = Ok (sample_buf, m') ∧
        bytes_at m' sample_buf 8
        = Some (truncation (sys_errmsg sample_runtime 13) 8 ++
                replicate
                  (Z.to_nat 8
                   - length (truncation (sys_errmsg sample_runtime 13) 8))
                  NUL).
Proof.
  apply (strerror_r_fills_buffer sample_runtime mingw sample_mem 13
           sample_buf 8).
  - reflexivity.
  - exact sample_messages.
  - exact sample_caller_buffer.
  - lia.
  - exact sample_size.
Defined.
